(** * Pigeon: a typed publish/subscribe client over a STOMP connection

    Shallow embedding of [src/pigeon/client.py] and of
    [call_with_correct_args] from [src/pigeon/utils.py].

    The client object is a record of its four attributes; the three
    dictionaries are finite maps keyed by topic name.  Everything the
    client does to the outside (calls on the STOMP connection, calls on
    the per-topic message class, log records, [time.sleep], the call of a
    user callback) is appended to a trace, in program order.  Python
    exceptions are the error side of a result; a raised exception keeps
    the state and the trace reached at the raise. *)

From stdpp Require Import base strings gmap list pretty.
From Stdlib Require Import ZArith Lia.

Local Open Scope Z_scope.
Local Open Scope string_scope.

(** ** Exceptions *)

(** The exception classes the client raises or lets through.
    [SignatureException] carries the two numbers of its message,
    [KeyError] the missing key, [ConnectFailedException] its text (what
    [str] gives) and its [__cause__] ([raise ... from e]).
    [SchemaException] stands for whatever the message class raises on
    construction, serialization or deserialization; [TransportException]
    for any exception of the transport's [connect] that is not a
    [ConnectFailedException]. *)
#[warnings="-register-all"]
Inductive Exception : Type :=
| NoSuchTopicException (topic : string)
| VersionMismatchException
| SignatureException (num_args available : nat)
| KeyError (key : string)
| ConnectFailedException (message : string) (cause : option Exception)
| SchemaException (message : string)
| TransportException (message : string).

Inductive Result (A : Type) : Type :=
| Ok (a : A)
| Raise (e : Exception).
Arguments Ok {A} a.
Arguments Raise {A} e.

(** ** Callables and their signatures ([inspect.signature]) *)

Inductive ParameterKind : Type :=
| POSITIONAL_ONLY
| POSITIONAL_OR_KEYWORD
| VAR_POSITIONAL
| KEYWORD_ONLY
| VAR_KEYWORD.

Global Instance ParameterKind_eq_dec : EqDecision ParameterKind.
Proof. solve_decision. Defined.

(** [Parameter.default] is either the marker [Parameter.empty] or some
    default value, of which only the presence is observed. *)
Inductive Default : Type :=
| empty
| has_default.

Global Instance Default_eq_dec : EqDecision Default.
Proof. solve_decision. Defined.

Record Param : Type := {
  name : string;
  kind : ParameterKind;
  default : Default
}.

(** A callable is known by the ordered parameters of its signature; the
    identifier tells two callables with equal signatures apart. *)
Record Callable : Type := {
  func_id : string;
  parameters : list Param
}.

Abbreviation Headers := (gmap string string).

Section Model.

(** [payload] is the keyword dictionary given to [send]; [msg] is an
    instance of a message class. *)
Context {payload msg : Type}.

(** The per-topic message class: construction from keyword fields (which
    validates and may raise), [serialize] on an instance, and the class
    method [deserialize]; each returns or raises. *)
Record Schema : Type := {
  construct : payload -> Result msg;
  serialize : msg -> Result string;
  deserialize : string -> Result msg
}.

(** The positional candidates and keyword extras handed to a callback. *)
Inductive Value : Type :=
| VMsg (m : msg)
| VStr (s : string)
| VHeaders (h : Headers).

Record Frame : Type := {
  headers : Headers;
  body : string
}.

(** ** The trace of outside effects *)

Inductive LogRecord : Type :=
| LogConnected
| LogConnectionFailed (e : Exception)
| LogSent (topic serialized_data : string)
| LogUnregistered (topic : string)
| LogSubscribed (topic : string) (callback : Callable)
| LogUnsubscribed (topic : string)
| LogDisconnected.

Inductive LogLevel : Type := DEBUG | INFO | WARNING | ERROR.

Inductive Event : Type :=
| ConnConnect (username password : option string)
| ConnSend (destination body : string) (hdrs : Headers)
| ConnSubscribe (destination id : string)
| ConnUnsubscribe (id : string)
| ConnDisconnect
| Sleep (secs : Z)
| Log (level : LogLevel) (record : LogRecord)
| SchemaConstruct (topic : string) (data : payload)
| SchemaSerialize (topic : string) (m : msg)
| SchemaDeserialize (topic : string) (data : string)
| Call (func : Callable) (args : list Value) (kwargs : list (string * Value)).

(** ** State *)

(** The attributes of a [Pigeon] instance. *)
Record Pigeon : Type := {
  _service : string;
  _topics : gmap string Schema;
  _msg_versions : gmap string string;
  _callbacks : gmap string Callable
}.

(** What the client cannot see into: the clock, read as
    [int(time.time_ns() / 1e6)] (the [n]-th reading is [clock n]); the
    outcome of the [n]-th call of the transport's [connect]; whether a
    call of a user callback on given arguments returns or raises;
    whether the transport reports itself connected; and the trace so
    far.  The transport's [send], [subscribe], [unsubscribe] and
    [disconnect] are taken to return. *)
Record World : Type := {
  clock : nat -> Z;
  ticks : nat;
  connect_outcome : nat -> Result unit;
  call_result : Callable -> list Value -> list (string * Value) -> Result unit;
  attempts : nat;
  connected : bool;
  trace : list Event
}.

Record State : Type := {
  self : Pigeon;
  world : World
}.

(** ** The monad of methods: state and exceptions *)

Definition M (A : Type) : Type := State -> Result A * State.

Definition ret {A} (a : A) : M A := fun s => (Ok a, s).

Definition bind {A B} (m : M A) (k : A -> M B) : M B :=
  fun s => match m s with
           | (Ok a, s') => k a s'
           | (Raise e, s') => (Raise e, s')
           end.

Definition raise {A} (e : Exception) : M A := fun s => (Raise e, s).

(** A call to the outside, which returns or raises. *)
Definition lift {A} (r : Result A) : M A :=
  match r with
  | Ok a => ret a
  | Raise e => raise e
  end.

Global Instance M_ret : MRet M := @ret.
Global Instance M_bind : MBind M := fun A B k m => bind m k.

Definition get_self : M Pigeon := fun s => (Ok (self s), s).

Definition set_self (p : Pigeon) : M unit :=
  fun s => (Ok tt, {| self := p; world := world s |}).

Definition get_world : M World := fun s => (Ok (world s), s).

Definition set_world (w : World) : M unit :=
  fun s => (Ok tt, {| self := self s; world := w |}).

Definition emit (e : Event) : M unit :=
  fun s => let w := world s in
           (Ok tt,
            {| self := self s;
               world := {| clock := clock w; ticks := ticks w;
                           connect_outcome := connect_outcome w;
                           call_result := call_result w;
                           attempts := attempts w;
                           connected := connected w;
                           trace := trace w ++ [e] |} |}).

(** ** [utils.call_with_correct_args] *)

(** The final call of [func] on the unpacked [args] and [kwargs]: the
    call is recorded with the arguments it is made with, and returns or
    raises as the world says. *)
Definition invoke (func : Callable) (args : list Value)
    (kwargs : list (string * Value)) : M unit :=
  emit (Call func args kwargs);;
  w ← get_world;
  lift (call_result w func args kwargs).

Definition call_with_correct_args (func : Callable) (args : list Value)
    (kwargs : list (string * Value)) : M unit :=
  let params := parameters func in
  args ←
    (if bool_decide
          (true ∉ (λ param, bool_decide (kind param = VAR_POSITIONAL)) <$> params)
     then
       let num_args :=
         length (filter (λ param, default param = empty
                                  ∧ kind param ≠ VAR_KEYWORD) params) in
       if bool_decide (length args < num_args)%nat
       then raise (SignatureException num_args (length args))
       else mret (take num_args args)
     else mret args);
  let kwargs :=
    if bool_decide
         (true ∉ (λ param, bool_decide (kind param = VAR_KEYWORD)) <$> params)
    then
      let allowed_keys :=
        name <$> filter (λ val, default val ≠ empty) params in
      filter (λ kv, kv.1 ∈ allowed_keys) kwargs
    else kwargs in
  invoke func args kwargs.

(** ** Primitive effects *)

(** [time.time_ns] is read once per call; the reading is rendered by
    [str] on a Python [int], that is in decimal. *)
Definition get_str_time_ms : M string :=
  fun s => let w := world s in
           (Ok (pretty (clock w (ticks w))),
            {| self := self s;
               world := {| clock := clock w; ticks := S (ticks w);
                           connect_outcome := connect_outcome w;
                           call_result := call_result w;
                           attempts := attempts w;
                           connected := connected w;
                           trace := trace w |} |}).

(** [d[k]] on a dictionary. *)
Definition getitem {V} (d : gmap string V) (k : string) : M V :=
  match d !! k with
  | Some v => mret v
  | None => raise (KeyError k)
  end.

(** [del d[k]] on a dictionary. *)
Definition delitem {V} (d : gmap string V) (k : string)
    : M (gmap string V) :=
  match d !! k with
  | Some _ => mret (delete k d)
  | None => raise (KeyError k)
  end.

(** [try: body except ...: handler]; [handler e] is [None] when no except
    clause matches [e]. *)
Definition try_except {A} (body : M A) (handler : Exception -> option (M A))
    : M A :=
  fun s => match body s with
           | (Ok a, s') => (Ok a, s')
           | (Raise e, s') =>
               match handler e with
               | Some h => h s'
               | None => (Raise e, s')
               end
           end.

(** The transport's [connect(username, password, wait=True)]: the call
    is recorded and answered by the next outcome of the world. *)
Definition conn_connect (username password : option string) : M unit :=
  emit (ConnConnect username password);;
  w ← get_world;
  let outcome := connect_outcome w (attempts w) in
  set_world {| clock := clock w; ticks := ticks w;
               connect_outcome := connect_outcome w;
                           call_result := call_result w;
               attempts := S (attempts w);
               connected := match outcome with
                            | Ok _ => true
                            | Raise _ => connected w
                            end;
               trace := trace w |};;
  lift outcome.

(** ** [Pigeon]: the registry *)

Definition set_topics (t : gmap string Schema) : M unit :=
  p ← get_self;
  set_self {| _service := _service p; _topics := t;
              _msg_versions := _msg_versions p;
              _callbacks := _callbacks p |}.

Definition set_msg_versions (v : gmap string string) : M unit :=
  p ← get_self;
  set_self {| _service := _service p; _topics := _topics p;
              _msg_versions := v;
              _callbacks := _callbacks p |}.

Definition set_callbacks (c : gmap string Callable) : M unit :=
  p ← get_self;
  set_self {| _service := _service p; _topics := _topics p;
              _msg_versions := _msg_versions p;
              _callbacks := c |}.

Definition register_topic (topic : string) (msg_class : Schema)
    (version : string) : M unit :=
  p ← get_self;
  set_topics (<[topic := msg_class]> (_topics p));;
  p ← get_self;
  set_msg_versions (<[topic := version]> (_msg_versions p)).

(** [dict.update] lets the entries of its argument win. *)
Definition register_topics (topics : gmap string Schema) (version : string)
    : M unit :=
  p ← get_self;
  set_topics (topics ∪ _topics p);;
  p ← get_self;
  set_msg_versions (((λ _, version) <$> topics) ∪ _msg_versions p).

(** [_load_topics]: each entry point loads to a pair of a topic mapping
    and a version. *)
Fixpoint _load_topics (entry_points : list (gmap string Schema * string))
    : M unit :=
  match entry_points with
  | [] => mret tt
  | entrypoint :: rest =>
      register_topics entrypoint.1 entrypoint.2;;
      _load_topics rest
  end.

(** The attributes as [__init__] sets them before topics are loaded. *)
Definition new_pigeon (service : string) : Pigeon :=
  {| _service := service; _topics := ∅; _msg_versions := ∅;
     _callbacks := ∅ |}.

(** [__init__] on a fresh object: [entry_points] is what the group
    [pigeon.msgs] holds. *)
Definition __init__ (service : string) (load_topics : bool)
    (entry_points : list (gmap string Schema * string)) : M unit :=
  set_self (new_pigeon service);;
  (if load_topics then _load_topics entry_points else mret tt);;
  set_callbacks ∅.

Definition _ensure_topic_exists (topic : string) : M unit :=
  p ← get_self;
  if bool_decide (topic ∉ dom (_topics p) ∨ topic ∉ dom (_msg_versions p))
  then raise (NoSuchTopicException topic)
  else mret tt.

(** ** [Pigeon.connect] *)

(** How one round of the [while] loop ends: by [break], or by falling
    through to the next test of the condition with the new counter. *)
Inductive LoopExit : Type :=
| Break
| Next (retries : Z).

Definition connect_round (username password : option string)
    (retry_limit retries : Z) : M LoopExit :=
  try_except
    (conn_connect username password;;
     emit (Log INFO LogConnected);;
     mret Break)
    (λ e, match e with
          | ConnectFailedException text _ =>
              Some (emit (Log ERROR (LogConnectionFailed e));;
                    let retries := retries + 1 in
                    emit (Sleep 1);;
                    if bool_decide (retries = retry_limit)
                    then raise (ConnectFailedException
                                  ("Could not connect to server: " +:+ text)
                                  (Some e))
                    else mret (Next retries))
          | _ => None
          end).

(** The [while retries < retry_limit] loop.  [fuel] bounds the rounds;
    the answer [None] means the bound was hit with the condition still
    true. *)
Fixpoint connect_loop (fuel : nat) (username password : option string)
    (retry_limit retries : Z) : M (option unit) :=
  if bool_decide (retries < retry_limit)
  then
    match fuel with
    | O => mret None
    | S fuel' =>
        exit ← connect_round username password retry_limit retries;
        match exit with
        | Break => mret (Some tt)
        | Next retries' =>
            connect_loop fuel' username password retry_limit retries'
        end
    end
  else mret (Some tt).

(** [retries] starts at 0 and grows by one per round, so [retry_limit]
    rounds are all the loop can make ([connect_fuel_enough]). *)
Definition connect (username password : option string) (retry_limit : Z)
    : M (option unit) :=
  connect_loop (Z.to_nat retry_limit) username password retry_limit 0.

(** ** [Pigeon.send], [_handle_message], subscriptions *)

Definition send (topic : string) (data : payload) : M unit :=
  _ensure_topic_exists topic;;
  p ← get_self;
  msg_class ← getitem (_topics p) topic;
  emit (SchemaConstruct topic data);;
  m ← lift (construct msg_class data);
  emit (SchemaSerialize topic m);;
  serialized_data ← lift (serialize msg_class m);
  let service := _service p in
  version ← getitem (_msg_versions p) topic;
  sent_at ← get_str_time_ms;
  let hdrs : Headers :=
    <["service" := service]>
      (<["version" := version]> (<["sent_at" := sent_at]> ∅)) in
  emit (ConnSend topic serialized_data hdrs);;
  emit (Log DEBUG (LogSent topic serialized_data)).

Definition _handle_message (message_frame : Frame) : M unit :=
  topic ← getitem (headers message_frame) "subscription";
  p ← get_self;
  if bool_decide (topic ∉ dom (_topics p) ∨ topic ∉ dom (_msg_versions p))
  then emit (Log WARNING (LogUnregistered topic))
  else
    if bool_decide (headers message_frame !! "version"
                    ≠ _msg_versions p !! topic)
    then raise VersionMismatchException
    else
      msg_class ← getitem (_topics p) topic;
      emit (SchemaDeserialize topic (body message_frame));;
      message_data ← lift (deserialize msg_class (body message_frame));
      callback ← getitem (_callbacks p) topic;
      call_with_correct_args callback
        [VMsg message_data; VStr topic; VHeaders (headers message_frame)] [].

Definition subscribe (topic : string) (callback : Callable) : M unit :=
  _ensure_topic_exists topic;;
  p ← get_self;
  (if bool_decide (topic ∉ dom (_callbacks p))
   then emit (ConnSubscribe topic topic)
   else mret tt);;
  set_callbacks (<[topic := callback]> (_callbacks p));;
  emit (Log INFO (LogSubscribed topic callback)).

Definition unsubscribe (topic : string) : M unit :=
  _ensure_topic_exists topic;;
  emit (ConnUnsubscribe topic);;
  emit (Log INFO (LogUnsubscribed topic));;
  p ← get_self;
  callbacks ← delitem (_callbacks p) topic;
  set_callbacks callbacks.

Definition disconnect : M unit :=
  w ← get_world;
  if connected w
  then
    emit ConnDisconnect;;
    w ← get_world;
    set_world {| clock := clock w; ticks := ticks w;
                 connect_outcome := connect_outcome w;
                           call_result := call_result w;
                 attempts := attempts w;
                 connected := false;
                 trace := trace w |};;
    emit (Log INFO LogDisconnected)
  else mret tt.

(** ** [TEMCommsListener.on_message]

    The listener is built with [callback = self._handle_message]; the
    frame it passes on is the frame it has just written to. *)
Definition on_message (frame : Frame) : M unit :=
  recieved_at ← get_str_time_ms;
  let frame := {| headers := <["recieved_at" := recieved_at]> (headers frame);
                  body := body frame |} in
  _handle_message frame.

End Model.

Arguments Schema : clear implicits.
Arguments Value : clear implicits.
Arguments Event : clear implicits.
Arguments Pigeon : clear implicits.
Arguments World : clear implicits.
Arguments State : clear implicits.
Arguments M : clear implicits.

(** ** Vocabulary of the specification *)

Section Vocabulary.
Context {payload msg : Type}.

(** A callable accepts unlimited positional arguments when its signature
    has a [*args] collector, unlimited keyword arguments when it has a
    [**kwargs] collector. *)
Definition accepts_var_positional (func : Callable) : Prop :=
  ∃ param, param ∈ parameters func ∧ kind param = VAR_POSITIONAL.

(** The required-positional count in the specification's words: the
    parameters without defaults, the two variadic collectors left out. *)
Definition required_positional_count (func : Callable) : nat :=
  length (filter (λ param, default param = empty
                           ∧ kind param ≠ VAR_POSITIONAL
                           ∧ kind param ≠ VAR_KEYWORD) (parameters func)).

(** A topic is bound when it has both a schema and a version. *)
Definition bound (p : Pigeon payload msg) (topic : string) : Prop :=
  is_Some (_topics p !! topic) ∧ is_Some (_msg_versions p !! topic).

(** The two mappings of the registry have the same keys. *)
Definition consistent (p : Pigeon payload msg) : Prop :=
  dom (_topics p) = dom (_msg_versions p).

(** A state with more events on its trace, and a state after one reading
    of the clock. *)
Definition with_events (s : State payload msg)
    (evs : list (Event payload msg)) : State payload msg :=
  let w := world s in
  {| self := self s;
     world := {| clock := clock w; ticks := ticks w;
                 connect_outcome := connect_outcome w;
                           call_result := call_result w;
                 attempts := attempts w;
                 connected := connected w;
                 trace := trace w ++ evs |} |}.

Definition ticked (s : State payload msg) : State payload msg :=
  let w := world s in
  {| self := self s;
     world := {| clock := clock w; ticks := S (ticks w);
                 connect_outcome := connect_outcome w;
                           call_result := call_result w;
                 attempts := attempts w;
                 connected := connected w;
                 trace := trace w |} |}.

(** A state whose client has another callback dictionary. *)
Definition with_callbacks (s : State payload msg)
    (c : gmap string Callable) : State payload msg :=
  {| self := {| _service := _service (self s);
                _topics := _topics (self s);
                _msg_versions := _msg_versions (self s);
                _callbacks := c |};
     world := world s |}.

(** A state after [k] more calls of the transport's [connect], with the
    transport's connected flag and more events on the trace. *)
Definition after_attempts (s : State payload msg) (k : nat)
    (now_connected : bool) (evs : list (Event payload msg))
    : State payload msg :=
  let w := world s in
  {| self := self s;
     world := {| clock := clock w; ticks := ticks w;
                 connect_outcome := connect_outcome w;
                           call_result := call_result w;
                 attempts := (k + attempts w)%nat;
                 connected := now_connected;
                 trace := trace w ++ evs |} |}.

(** The clock reading the next [get_str_time_ms] returns. *)
Definition now_ms (s : State payload msg) : Z :=
  clock (world s) (ticks (world s)).

(** The registration calls of the public API. *)
Inductive Registration : Type :=
| RegisterTopic (topic : string) (msg_class : Schema payload msg)
    (version : string)
| RegisterTopics (topics : gmap string (Schema payload msg))
    (version : string).

Definition register (r : Registration) : M payload msg unit :=
  match r with
  | RegisterTopic topic msg_class version =>
      register_topic topic msg_class version
  | RegisterTopics topics version => register_topics topics version
  end.

Fixpoint register_all (rs : list Registration) : M payload msg unit :=
  match rs with
  | [] => mret tt
  | r :: rs => register r;; register_all rs
  end.

(** The transport-level subscribe calls for one topic in a trace. *)
Definition is_subscribe_of (topic : string) (e : Event payload msg) : bool :=
  match e with
  | ConnSubscribe destination _ => bool_decide (destination = topic)
  | _ => false
  end.

Definition transport_subscribes (topic : string)
    (tr : list (Event payload msg)) : nat :=
  length (List.filter (is_subscribe_of topic) tr).

(** The calls of user callbacks and of [deserialize] in a trace. *)
Definition is_call (e : Event payload msg) : bool :=
  match e with
  | Call _ _ _ => true
  | _ => false
  end.

Definition is_deserialize (e : Event payload msg) : bool :=
  match e with
  | SchemaDeserialize _ _ => true
  | _ => false
  end.

Definition is_conn_send (e : Event payload msg) : bool :=
  match e with
  | ConnSend _ _ _ => true
  | _ => false
  end.

(** The trace of one failed round of [connect], and of the failed
    rounds answering the attempts numbered [a], ..., [a + n - 1] when
    attempt [j] fails with [err j]. *)
Definition failed_round (username password : option string)
    (e : Exception) : list (Event payload msg) :=
  [ConnConnect username password; Log ERROR (LogConnectionFailed e); Sleep 1].

Definition failed_rounds (username password : option string)
    (err : nat -> Exception) (a n : nat) : list (Event payload msg) :=
  concat ((λ j, failed_round username password (err j)) <$> seq a n).

(** The text of a [ConnectFailedException], and the exception [connect]
    raises when the retries are used up on the cause [e]. *)
Definition connect_failed_text (e : Exception) : string :=
  match e with
  | ConnectFailedException text _ => text
  | _ => EmptyString
  end.

Definition could_not_connect (e : Exception) : Exception :=
  ConnectFailedException
    ("Could not connect to server: " +:+ connect_failed_text e) (Some e).

(** Attempt [j] is refused with a [ConnectFailedException]. *)
Definition refuses (outcomes : nat -> Result unit) (err : nat -> Exception)
    (j : nat) : Prop :=
  outcomes j = Raise (err j)
  ∧ ∃ message cause, err j = ConnectFailedException message cause.

End Vocabulary.

Arguments Registration : clear implicits.

(** ** A concrete client, for running the model *)

Module Sample.

(** Keyword fields and message instances are field lists over integers. *)
Definition fields : Type := list (string * Z).

Definition has_field (k : string) (data : fields) : bool :=
  bool_decide (k ∈ data.*1).

Definition render (m : fields) : string :=
  String.concat "," ((λ kv, kv.1 +:+ "=" +:+ pretty kv.2) <$> m).

(** A message class with the two required fields [id] and [qty]; its
    [deserialize] knows the one body used below. *)
Definition Order : Schema fields fields :=
  {| construct := λ data,
       if has_field "id" data && has_field "qty" data
       then Ok data
       else Raise (SchemaException "validation error");
     serialize := λ m, Ok (render m);
     deserialize := λ s,
       if bool_decide (s = "id=5,qty=2")
       then Ok [("id", 5); ("qty", 2)]
       else Raise (SchemaException "invalid body") |}.

Definition positional (n : string) : Param :=
  {| name := n; kind := POSITIONAL_OR_KEYWORD; default := empty |}.

Definition on_tick : Callable :=
  {| func_id := "on_tick"; parameters := [] |}.

Definition on_order : Callable :=
  {| func_id := "on_order";
     parameters := [positional "msg"; positional "topic"] |}.

Definition on_order_full : Callable :=
  {| func_id := "on_order_full";
     parameters := [positional "msg"; positional "topic";
                    positional "headers"] |}.

Definition on_four : Callable :=
  {| func_id := "on_four";
     parameters := [positional "a"; positional "b"; positional "c";
                    positional "d"] |}.

Definition refused : Exception := ConnectFailedException "refused" None.

(** A broker that refuses every connection, and one that accepts the
    third attempt. *)
Definition down : nat -> Result unit := λ _, Raise refused.

Definition up_at_third : nat -> Result unit :=
  λ n, if bool_decide (n = 2%nat) then Ok tt else Raise refused.

Definition world0 (outcomes : nat -> Result unit) : World fields fields :=
  {| clock := λ n, 1700000000000 + Z.of_nat n; ticks := 0;
     connect_outcome := outcomes; call_result := λ _ _ _, Ok tt;
     attempts := 0; connected := false;
     trace := [] |}.

Definition state0 (outcomes : nat -> Result unit) : State fields fields :=
  {| self := new_pigeon EmptyString; world := world0 outcomes |}.

(** The state after a method has run. *)
Definition after {A} (m : M fields fields A) (s : State fields fields)
    : State fields fields :=
  (m s).2.

(** A client of service [shop] with topic [orders] registered at version
    [1.0] and nothing subscribed. *)
Definition registered : State fields fields :=
  after (__init__ "shop" false [];; register_topic "orders" Order "1.0")
        (state0 down).

(** The same client after [orders] has been subscribed and unsubscribed
    again. *)
Definition unsubscribed : State fields fields :=
  after (subscribe "orders" on_order;; unsubscribe "orders") registered.

Definition subscribed (callback : Callable) : State fields fields :=
  after (subscribe "orders" callback) registered.

Definition order_frame (version : string) : Frame :=
  {| headers := <["subscription" := "orders"]> (<["version" := version]> ∅);
     body := "id=5,qty=2" |}.

End Sample.

(** ** [Pigeon.subscribe_all], and more vocabulary *)

Section SubscribeAll.
Context {payload msg : Type}.

(** The loop [for topic in self._topics] visits the keys in the order
    the dictionary holds them, which a finite map does not record:
    [order] is that order, and [key_order] says that it lists the keys
    of [_topics], each once. *)
Fixpoint subscribe_all (order : list string) (callback : Callable)
    : M payload msg unit :=
  match order with
  | [] => mret tt
  | topic :: rest =>
      subscribe topic callback;;
      subscribe_all rest callback
  end.

Definition key_order (p : Pigeon payload msg) (order : list string) : Prop :=
  NoDup order ∧ ∀ topic, topic ∈ order ↔ topic ∈ dom (_topics p).

(** A callable has a [**kwargs] collector. *)
Definition accepts_var_keyword (func : Callable) : Prop :=
  ∃ param, param ∈ parameters func ∧ kind param = VAR_KEYWORD.

(** The keys a callable without [**kwargs] may be passed: the names of
    its parameters with a default. *)
Definition allowed_keys (func : Callable) : list string :=
  name <$> filter (λ param, default param ≠ empty) (parameters func).

(** The parameters without a default of one kind. *)
Definition required_of_kind (k : ParameterKind) (func : Callable) : nat :=
  length (filter (λ param, default param = empty ∧ kind param = k)
            (parameters func)).

(** The calls of the transport in a trace. *)
Definition is_transport (e : Event payload msg) : bool :=
  match e with
  | ConnConnect _ _ | ConnSend _ _ _ | ConnSubscribe _ _
  | ConnUnsubscribe _ | ConnDisconnect => true
  | _ => false
  end.

Definition is_sleep (e : Event payload msg) : bool :=
  match e with
  | Sleep _ => true
  | _ => false
  end.

Definition is_connect (e : Event payload msg) : bool :=
  match e with
  | ConnConnect _ _ => true
  | _ => false
  end.

End SubscribeAll.

(** ** [__main__.main] *)

Section Main.
Context {payload msg : Type}.

(** What [parser.parse_args()] returns.  [--subscribe] is declared with
    [action="append", default=[]], so [args.subscribe] is a list;
    [--list] and [--headers] are [store_true] flags. *)
Record Namespace : Type := {
  args_host : string;
  args_port : Z;
  args_username : option string;
  args_password : option string;
  args_publish : option string;
  args_data : option string;
  args_subscribe : list string;
  args_list : bool;
  args_headers : bool
}.

(** Truth value of an optional string: [None] and the empty string are
    false. *)
Definition truthy (o : option string) : bool :=
  match o with
  | Some text => bool_decide (text ≠ EmptyString)
  | None => false
  end.

(** [partial(callback, args.headers)]: the first parameter of [callback]
    is bound, the signature left is [(msg, topic, headers)]. *)
Definition cli_callback (disp_headers : bool) : Callable :=
  {| func_id := "functools.partial(callback, args.headers)";
     parameters :=
       [{| name := "msg"; kind := POSITIONAL_OR_KEYWORD; default := empty |};
        {| name := "topic"; kind := POSITIONAL_OR_KEYWORD; default := empty |};
        {| name := "headers"; kind := POSITIONAL_OR_KEYWORD;
           default := empty |}] |}.

(** How [main] ends when it raises nothing: by returning, or in the
    [while True: pass] loop that waits for the interrupt. *)
Inductive MainExit : Type :=
| Returned
| Waiting.

(** [main] on parsed arguments; the value is the lines printed and the
    way it ends.  [entry_points] is the content of the [pigeon.msgs]
    group, [safe_load] is [yaml.safe_load] followed by the unpacking of
    its value as keyword fields (it returns or raises), and [order] is
    the order in which the loop of [--list] finds the keys of
    [_topics].  [args.subscribe is None] is false on a list.  The two
    constructor calls differ in host and port only, which the model of
    the transport does not hold. *)
Definition main (args : Namespace)
    (entry_points : list (gmap string (Schema payload msg) * string))
    (safe_load : option string -> Result payload) (order : list string)
    : M payload msg (list string * MainExit) :=
  if args_list args
  then
    __init__ "CLI" true entry_points;;
    mret (order, Returned)
  else if bool_decide (args_publish args = None) && false
  then mret (["No action specified."], Returned)
  else if truthy (args_publish args) && bool_decide (args_data args = None)
  then mret (["Must also specify data to publish."], Returned)
  else if truthy (args_data args) && bool_decide (args_publish args = None)
  then mret (["Most also specify topic to publish data to."], Returned)
  else
    __init__ "CLI" true entry_points;;
    connect (args_username args) (args_password args) 8;;
    (if truthy (args_publish args)
     then
       match args_publish args with
       | Some topic =>
           data ← lift (safe_load (args_data args));
           send topic data
       | None => mret tt
       end
     else mret tt);;
    subscribe_all (args_subscribe args) (cli_callback (args_headers args));;
    mret ([], match args_subscribe args with
              | [] => Returned
              | _ :: _ => Waiting
              end).

End Main.

Arguments Namespace : clear implicits.

(** ** More sample callables and worlds *)

Module Cases.

(** [def on_retry(msg, retries=0)]. *)
Definition on_retry : Callable :=
  {| func_id := "on_retry";
     parameters := [Sample.positional "msg";
                    {| name := "retries"; kind := POSITIONAL_OR_KEYWORD;
                       default := has_default |}] |}.

(** A function of the two collectors [*args] and [**kwargs] only. *)
Definition on_any : Callable :=
  {| func_id := "on_any";
     parameters := [{| name := "args"; kind := VAR_POSITIONAL;
                       default := empty |};
                    {| name := "kwargs"; kind := VAR_KEYWORD;
                       default := empty |}] |}.

(** [def on_flag(msg, *, flag)]. *)
Definition on_flag : Callable :=
  {| func_id := "on_flag";
     parameters := [Sample.positional "msg";
                    {| name := "flag"; kind := KEYWORD_ONLY;
                       default := empty |}] |}.

(** A broker whose [connect] fails with something other than a
    [ConnectFailedException]. *)
Definition broken : nat -> Result unit :=
  λ _, Raise (TransportException "socket closed").

End Cases.

(** * Properties *)

Ltac unfold_monad :=
  unfold mbind, M_bind, bind, mret, M_ret, ret, raise, lift, getitem,
    delitem, get_self, set_self, get_world, set_world, set_topics,
    set_msg_versions, set_callbacks, emit in *.

(** ** The registry *)

Section Registry.
Context {payload msg : Type}.
Implicit Types (s : State payload msg) (p : Pigeon payload msg).
Implicit Types (topic : string).

Lemma unbound_iff p topic :
  topic ∉ dom (_topics p) ∨ topic ∉ dom (_msg_versions p) ↔ ¬ bound p topic.
Proof.
  unfold bound. rewrite <- !elem_of_dom.
  split; [tauto |].
  intros H. destruct (decide (topic ∈ dom (_topics p))); [| tauto].
  right. tauto.
Qed.

Lemma ensure_bound s topic :
  bound (self s) topic -> _ensure_topic_exists topic s = (Ok tt, s).
Proof.
  intros Hb. unfold _ensure_topic_exists. unfold_monad.
  rewrite bool_decide_eq_false_2; [done |].
  rewrite unbound_iff. tauto.
Qed.

Lemma ensure_unbound s topic :
  ¬ bound (self s) topic ->
  _ensure_topic_exists topic s = (Raise (NoSuchTopicException topic), s).
Proof.
  intros Hb. unfold _ensure_topic_exists. unfold_monad.
  rewrite bool_decide_eq_true_2; [done |].
  by rewrite unbound_iff.
Qed.

Lemma ensure_succeeds_iff s topic :
  (_ensure_topic_exists topic s).1 = Ok tt ↔ bound (self s) topic.
Proof.
  split.
  - intros H. destruct (decide (topic ∈ dom (_topics (self s))
                                ∧ topic ∈ dom (_msg_versions (self s))))
      as [Hin | Hout].
    + unfold bound. by rewrite <- !elem_of_dom.
    + rewrite ensure_unbound in H; [discriminate |].
      unfold bound. by rewrite <- !elem_of_dom.
  - intros H. by rewrite ensure_bound.
Qed.

Lemma register_topic_consistent topic msg_class version s :
  consistent (self s) ->
  ∃ s', register_topic topic msg_class version s = (Ok tt, s')
        ∧ consistent (self s').
Proof.
  intros Hc. eexists. split; [reflexivity |].
  unfold consistent in *. simpl. rewrite !dom_insert_L. by rewrite Hc.
Qed.

Lemma register_topics_consistent topics version s :
  consistent (self s) ->
  ∃ s', register_topics topics version s = (Ok tt, s')
        ∧ consistent (self s').
Proof.
  intros Hc. eexists. split; [reflexivity |].
  unfold consistent in *. simpl. rewrite !dom_union_L, dom_fmap_L.
  by rewrite Hc.
Qed.

Lemma load_topics_consistent entry_points s :
  consistent (self s) ->
  ∃ s', _load_topics entry_points s = (Ok tt, s') ∧ consistent (self s').
Proof.
  revert s. induction entry_points as [| ep rest IH]; intros s Hc.
  - by exists s.
  - destruct (register_topics_consistent ep.1 ep.2 s Hc) as (s1 & E1 & H1).
    destruct (IH s1 H1) as (s2 & E2 & H2).
    exists s2. split; [| done].
    simpl. unfold mbind, M_bind, bind. by rewrite E1.
Qed.

Lemma register_all_consistent (rs : list (Registration payload msg)) s :
  consistent (self s) ->
  ∃ s', register_all rs s = (Ok tt, s') ∧ consistent (self s').
Proof.
  revert s. induction rs as [| r rs IH]; intros s Hc.
  - by exists s.
  - assert (∃ s1, register r s = (Ok tt, s1) ∧ consistent (self s1))
      as (s1 & E1 & H1).
    { destruct r; [by apply register_topic_consistent
                  | by apply register_topics_consistent]. }
    destruct (IH s1 H1) as (s2 & E2 & H2).
    exists s2. split; [| done].
    simpl. unfold mbind, M_bind, bind. by rewrite E1.
Qed.

Lemma init_consistent service load_topics entry_points s :
  ∃ s', __init__ service load_topics entry_points s = (Ok tt, s')
        ∧ consistent (self s') ∧ _callbacks (self s') = ∅.
Proof.
  unfold __init__. unfold mbind, M_bind, bind at 1.
  set (s0 := (set_self (new_pigeon service) s).2).
  assert (consistent (self s0)) as H0 by done.
  change (set_self (new_pigeon service) s) with (Ok tt, s0).
  unfold bind at 1.
  assert (∃ s1, (if load_topics then _load_topics entry_points else mret tt) s0
                = (Ok tt, s1) ∧ consistent (self s1)) as (s1 & E1 & H1).
  { destruct load_topics; [by apply load_topics_consistent | by exists s0]. }
  rewrite E1. eexists. split; [reflexivity |]. done.
Qed.

(** C8. After [__init__] and any sequence of [register_topic] and
    [register_topics] calls, the schema mapping and the version mapping
    have the same topics (a topic with a schema has a version and the
    other way round), and [_ensure_topic_exists topic] succeeds exactly
    when [topic] has both a schema and a version. *)
Theorem registry_binding_invariant
    (service : string) (load_topics : bool)
    (entry_points : list (gmap string (Schema payload msg) * string))
    (rs : list (Registration payload msg)) s :
  ∃ s', (__init__ service load_topics entry_points;; register_all rs) s
        = (Ok tt, s')
        ∧ (∀ topic, is_Some (_topics (self s') !! topic)
                    ↔ is_Some (_msg_versions (self s') !! topic))
        ∧ (∀ topic, (_ensure_topic_exists topic s').1 = Ok tt
                    ↔ is_Some (_topics (self s') !! topic)
                      ∧ is_Some (_msg_versions (self s') !! topic)).
Proof.
  destruct (init_consistent service load_topics entry_points s)
    as (s0 & E0 & H0 & _).
  destruct (register_all_consistent rs s0 H0) as (s1 & E1 & H1).
  exists s1. split; [| split].
  - unfold mbind, M_bind, bind. by rewrite E0.
  - intros topic. rewrite <- !elem_of_dom. unfold consistent in H1.
    by rewrite H1.
  - intros topic. apply ensure_succeeds_iff.
Qed.

End Registry.

(** ** Sending *)

Section Sending.
Context {payload msg : Type}.
Implicit Types (s : State payload msg) (topic : string).

Lemma with_events_app s (evs1 evs2 : list (Event payload msg)) :
  with_events (with_events s evs1) evs2 = with_events s (evs1 ++ evs2).
Proof. unfold with_events. simpl. by rewrite <- app_assoc. Qed.

Lemma emit_with_events s (e : Event payload msg) :
  emit e s = (Ok tt, with_events s [e]).
Proof. done. Qed.

Lemma get_str_time_ms_ticked s :
  get_str_time_ms s = (Ok (pretty (now_ms s)), ticked s).
Proof. done. Qed.

(** C5. For a topic that lacks a schema or a version, [send] raises
    [NoSuchTopicException] and leaves the state as it found it: nothing
    is added to the trace, so the transport's [send] is not called, and
    the exception is the result of the call. *)
Theorem send_unbound_topic s topic (data : payload) :
  ¬ bound (self s) topic ->
  send topic data s = (Raise (NoSuchTopicException topic), s).
Proof.
  intros Hb. unfold send. unfold mbind, M_bind, bind at 1.
  by rewrite ensure_unbound.
Qed.

(** X6. The outbound half of the header contract: on a bound topic whose
    message class accepts and serializes the fields, the transport's
    [send] gets the
    topic as destination, the serialization as body, and headers made of
    exactly [service], [version] and [sent_at], the last one the decimal
    text of the clock reading. *)
Lemma send_wire_contract s topic (data : payload) msg_class version m
    serialized_data :
  _topics (self s) !! topic = Some msg_class ->
  _msg_versions (self s) !! topic = Some version ->
  construct msg_class data = Ok m ->
  serialize msg_class m = Ok serialized_data ->
  ∃ hdrs : Headers,
    send topic data s
    = (Ok tt,
       with_events (ticked s)
         [SchemaConstruct topic data; SchemaSerialize topic m;
          ConnSend topic serialized_data hdrs;
          Log DEBUG (LogSent topic serialized_data)])
    ∧ dom hdrs = {["service"; "version"; "sent_at"]}
    ∧ hdrs !! "service" = Some (_service (self s))
    ∧ hdrs !! "version" = Some version
    ∧ hdrs !! "sent_at" = Some (pretty (now_ms s)).
Proof.
  intros Ht Hv Hc Hs.
  exists (<["service" := _service (self s)]>
            (<["version" := version]>
               (<["sent_at" := pretty (now_ms s)]> ∅))).
  split; [| split; [| split; [| split]]].
  - unfold send. unfold mbind, M_bind, bind at 1.
    rewrite ensure_bound by (split; eauto).
    unfold_monad. rewrite Ht. simpl. rewrite Hc. simpl. rewrite Hs. simpl.
    rewrite Hv. simpl.
    unfold with_events, ticked. simpl. by rewrite <- !app_assoc.
  - rewrite !dom_insert_L, dom_empty_L. set_solver.
  - by simplify_map_eq.
  - by simplify_map_eq.
  - by simplify_map_eq.
Qed.

End Sending.

Lemma send_unbound_topic_witness :
  ¬ bound (self (Sample.state0 Sample.down)) "orders"
  ∧ send "orders" [("id", 5); ("qty", 2)] (Sample.state0 Sample.down)
    = (Raise (NoSuchTopicException "orders"), Sample.state0 Sample.down).
Proof.
  assert (¬ bound (self (Sample.state0 Sample.down)) "orders") as H.
  { intros [[x Hx] _]. simpl in Hx. by rewrite lookup_empty in Hx. }
  split; [exact H |].
  exact (send_unbound_topic (Sample.state0 Sample.down) "orders"
           [("id", 5); ("qty", 2)] H).
Defined.

(** ** Adaptive invocation *)

Section Invocation.
Context {payload msg : Type}.
Implicit Types (s : State payload msg) (func : Callable).
Implicit Types (args : list (Value msg)).

Lemma var_positional_test func :
  true ∉ (λ param, bool_decide (kind param = VAR_POSITIONAL))
         <$> parameters func
  ↔ ¬ accepts_var_positional func.
Proof.
  unfold accepts_var_positional. rewrite list_elem_of_fmap. split.
  - intros H (param & Hin & Hk). apply H. exists param.
    split; [| done]. by rewrite bool_decide_eq_true_2.
  - intros H (param & Hk & Hin). apply H. exists param.
    split; [done |]. symmetry in Hk. by apply bool_decide_eq_true_1 in Hk.
Qed.

Lemma no_var_positional_by_test func :
  bool_decide (true ∉ (λ param, bool_decide (kind param = VAR_POSITIONAL))
                      <$> parameters func) = true ->
  ¬ accepts_var_positional func.
Proof.
  intros H. apply var_positional_test. by apply bool_decide_eq_true in H.
Qed.

(** Without a [*args] collector, the number the code counts is the
    required-positional count of the specification. *)
Lemma num_args_required func :
  ¬ accepts_var_positional func ->
  length (filter (λ param, default param = empty
                           ∧ kind param ≠ VAR_KEYWORD) (parameters func))
  = required_positional_count func.
Proof.
  unfold accepts_var_positional, required_positional_count.
  induction (parameters func) as [| param params IH]; intros Hno; [done |].
  assert (kind param ≠ VAR_POSITIONAL) as Hk.
  { intros Hk. apply Hno. exists param. split; [left | done]. }
  assert (length (filter (λ param, default param = empty
                                   ∧ kind param ≠ VAR_KEYWORD) params)
          = length (filter (λ param, default param = empty
                                     ∧ kind param ≠ VAR_POSITIONAL
                                     ∧ kind param ≠ VAR_KEYWORD) params))
    as IH'.
  { apply IH. intros (q & Hin & Hq). apply Hno. exists q.
    split; [by right | done]. }
  rewrite !filter_cons.
  destruct (decide (default param = empty ∧ kind param ≠ VAR_KEYWORD))
    as [Hp | Hp];
    destruct (decide (default param = empty ∧ kind param ≠ VAR_POSITIONAL
                      ∧ kind param ≠ VAR_KEYWORD)) as [Hq | Hq];
    simpl; try tauto; by rewrite IH'.
Qed.

Lemma invoke_result func args (kwargs : list (string * Value msg)) s :
  invoke func args kwargs s
  = (call_result (world s) func args kwargs,
     with_events s [Call func args kwargs]).
Proof.
  unfold invoke. unfold_monad. simpl.
  by destruct (call_result (world s) func args kwargs) as [[] | e].
Qed.

Lemma call_truncates func args s :
  ¬ accepts_var_positional func ->
  (required_positional_count func ≤ length args)%nat ->
  call_with_correct_args func args [] s
  = (call_result (world s) func
       (take (required_positional_count func) args) [],
     with_events s
       [Call func (take (required_positional_count func) args) []]).
Proof.
  intros Hno Hle. unfold call_with_correct_args.
  rewrite (bool_decide_eq_true_2 _ (proj2 (var_positional_test func) Hno)).
  rewrite num_args_required by done.
  rewrite (bool_decide_eq_false_2
             (length args < required_positional_count func)%nat) by lia.
  unfold mbind, M_bind, bind, mret, M_ret, ret.
  rewrite invoke_result. by destruct (bool_decide _).
Qed.

Lemma call_signature_error func args kwargs s :
  ¬ accepts_var_positional func ->
  (length args < required_positional_count func)%nat ->
  call_with_correct_args func args kwargs s
  = (Raise (SignatureException (required_positional_count func)
              (length args)), s).
Proof.
  intros Hno Hlt. unfold call_with_correct_args.
  rewrite (bool_decide_eq_true_2 _ (proj2 (var_positional_test func) Hno)).
  rewrite num_args_required by done.
  by rewrite (bool_decide_eq_true_2
                (length args < required_positional_count func)%nat) by done.
Qed.

(** With a [*args] collector every candidate is passed on. *)
Lemma call_var_positional func args s :
  accepts_var_positional func ->
  call_with_correct_args func args [] s
  = (call_result (world s) func args [],
     with_events s [Call func args []]).
Proof.
  intros Hyes. unfold call_with_correct_args.
  assert (¬ (true ∉ (λ param, bool_decide (kind param = VAR_POSITIONAL))
                     <$> parameters func)) as Hyes'
    by (intros H; by apply var_positional_test in H).
  rewrite (bool_decide_eq_false_2 _ Hyes').
  unfold mbind, M_bind, bind, mret, M_ret, ret.
  rewrite invoke_result. by destruct (bool_decide _).
Qed.

End Invocation.

(** ** Dispatch of inbound frames *)

Section Dispatch.
Context {payload msg : Type}.
Implicit Types (s : State payload msg) (frame : Frame) (topic : string).

(** The frame [on_message] passes on: the inbound frame with the key the
    listener writes. *)
Lemma on_message_unfold frame s :
  on_message frame s
  = _handle_message
      {| headers := <["recieved_at" := pretty (now_ms s)]> (headers frame);
         body := body frame |}
      (ticked s).
Proof. done. Qed.

Lemma handle_message_unbound frame topic s :
  headers frame !! "subscription" = Some topic ->
  ¬ bound (self s) topic ->
  _handle_message frame s
  = (Ok tt, with_events s [Log WARNING (LogUnregistered topic)]).
Proof.
  intros Hsub Hb. unfold _handle_message. unfold_monad.
  rewrite Hsub. simpl.
  rewrite bool_decide_eq_true_2; [done |]. by apply unbound_iff.
Qed.

Lemma handle_message_mismatch frame topic s :
  headers frame !! "subscription" = Some topic ->
  bound (self s) topic ->
  headers frame !! "version" ≠ _msg_versions (self s) !! topic ->
  _handle_message frame s = (Raise VersionMismatchException, s).
Proof.
  intros Hsub Hb Hv. unfold _handle_message. unfold_monad.
  rewrite Hsub. simpl.
  rewrite bool_decide_eq_false_2 by (rewrite unbound_iff; tauto).
  by rewrite bool_decide_eq_true_2.
Qed.

(** A frame for a bound topic with the bound version, whose body the
    message class accepts, reaches the dispatcher with the three
    candidates, after [deserialize] has been called. *)
Lemma handle_message_dispatches frame topic msg_class version m s :
  headers frame !! "subscription" = Some topic ->
  _topics (self s) !! topic = Some msg_class ->
  _msg_versions (self s) !! topic = Some version ->
  headers frame !! "version" = Some version ->
  deserialize msg_class (body frame) = Ok m ->
  _handle_message frame s
  = (callback ← getitem (_callbacks (self s)) topic;
     call_with_correct_args callback
       [VMsg m; VStr topic; VHeaders (headers frame)] [])
      (with_events s [SchemaDeserialize topic (body frame)]).
Proof.
  intros Hsub Ht Hv Hfv Hd. unfold _handle_message. unfold_monad.
  rewrite Hsub. simpl.
  rewrite bool_decide_eq_false_2
    by (rewrite unbound_iff; unfold bound; rewrite Ht, Hv; eauto).
  rewrite bool_decide_eq_false_2 by (rewrite Hfv, Hv; tauto).
  rewrite Ht. simpl. rewrite Hd. simpl.
  by destruct (_callbacks (self s) !! topic).
Qed.

Lemma handle_message_calls frame topic msg_class version m callback s :
  headers frame !! "subscription" = Some topic ->
  _topics (self s) !! topic = Some msg_class ->
  _msg_versions (self s) !! topic = Some version ->
  headers frame !! "version" = Some version ->
  deserialize msg_class (body frame) = Ok m ->
  _callbacks (self s) !! topic = Some callback ->
  _handle_message frame s
  = call_with_correct_args callback
      [VMsg m; VStr topic; VHeaders (headers frame)] []
      (with_events s [SchemaDeserialize topic (body frame)]).
Proof.
  intros Hsub Ht Hv Hfv Hd Hcb.
  rewrite (handle_message_dispatches frame topic msg_class version m)
    by done.
  unfold mbind, M_bind, bind, getitem. simpl. by rewrite Hcb.
Qed.

(** C2. A frame for a bound topic whose [version] header is not the
    bound version (a missing header included) makes [_handle_message]
    raise [VersionMismatchException] with the state untouched: no
    [deserialize], no callback.  [on_message] has no handler around the
    call, so the exception leaves the delivery path, the only change
    being the clock reading the listener took. *)
Theorem version_mismatch_raises frame topic s :
  headers frame !! "subscription" = Some topic ->
  bound (self s) topic ->
  headers frame !! "version" ≠ _msg_versions (self s) !! topic ->
  _handle_message frame s = (Raise VersionMismatchException, s)
  ∧ on_message frame s = (Raise VersionMismatchException, ticked s)
  ∧ trace (world (on_message frame s).2) = trace (world s).
Proof.
  intros Hsub Hb Hv.
  assert (on_message frame s = (Raise VersionMismatchException, ticked s))
    as Hon.
  { rewrite on_message_unfold.
    apply (handle_message_mismatch _ topic); simpl.
    - by rewrite lookup_insert_ne.
    - done.
    - by rewrite lookup_insert_ne. }
  split; [by apply (handle_message_mismatch _ topic) |].
  split; [done |]. by rewrite Hon.
Qed.

(** C3, amended. For a callback without a [*args] collector whose
    required-positional count [n] is at most 3, a frame that reaches the
    dispatcher ends in one call of the callback on the first [n] of
    (message, topic, headers), which are [n] arguments: none for a
    callback without parameters, message and topic for [n = 2].  The
    outcome of the dispatch is the outcome of that call. *)
Theorem dispatch_truncates_to_required
    frame topic msg_class version m callback s :
  headers frame !! "subscription" = Some topic ->
  _topics (self s) !! topic = Some msg_class ->
  _msg_versions (self s) !! topic = Some version ->
  headers frame !! "version" = Some version ->
  deserialize msg_class (body frame) = Ok m ->
  _callbacks (self s) !! topic = Some callback ->
  ¬ accepts_var_positional callback ->
  (required_positional_count callback ≤ 3)%nat ->
  let n := required_positional_count callback in
  let candidates : list (Value msg) :=
    [VMsg m; VStr topic; VHeaders (headers frame)] in
  _handle_message frame s
  = (call_result (world s) callback (take n candidates) [],
     with_events s
       [SchemaDeserialize topic (body frame);
        Call callback (take n candidates) []])
  ∧ length (take n candidates) = n
  ∧ (parameters callback = [] -> take n candidates = [])
  ∧ (n = 2%nat -> take n candidates = [VMsg m; VStr topic]).
Proof.
  intros Hsub Ht Hv Hfv Hd Hcb Hno Hle n candidates.
  split; [| split; [| split]].
  - rewrite (handle_message_calls frame topic msg_class version m callback)
      by done.
    rewrite call_truncates by done.
    by rewrite with_events_app.
  - by rewrite length_take_le.
  - intros Hnil. subst n. unfold required_positional_count.
    by rewrite Hnil.
  - intros Hn. by rewrite Hn.
Qed.

(** C6. For a callback without a [*args] collector that requires more
    than 3 positional arguments, a frame that reaches the dispatcher
    raises [SignatureException]; the trace gains the [deserialize] call
    and no call of the callback. *)
Theorem too_many_required_raises
    frame topic msg_class version m callback s :
  headers frame !! "subscription" = Some topic ->
  _topics (self s) !! topic = Some msg_class ->
  _msg_versions (self s) !! topic = Some version ->
  headers frame !! "version" = Some version ->
  deserialize msg_class (body frame) = Ok m ->
  _callbacks (self s) !! topic = Some callback ->
  ¬ accepts_var_positional callback ->
  (3 < required_positional_count callback)%nat ->
  _handle_message frame s
  = (Raise (SignatureException (required_positional_count callback) 3),
     with_events s [SchemaDeserialize topic (body frame)]).
Proof.
  intros Hsub Ht Hv Hfv Hd Hcb Hno Hgt.
  rewrite (handle_message_calls frame topic msg_class version m callback)
    by done.
  by rewrite call_signature_error.
Qed.

(** C9, amended. A frame whose subscription id is not a bound topic (it
    lacks a schema or a version) is logged with a warning and dropped:
    the call returns, and the warning is all the trace gains. *)
Theorem unregistered_topic_dropped frame topic s :
  headers frame !! "subscription" = Some topic ->
  ¬ bound (self s) topic ->
  _handle_message frame s
  = (Ok tt, with_events s [Log WARNING (LogUnregistered topic)])
  ∧ on_message frame s
    = (Ok tt, with_events (ticked s) [Log WARNING (LogUnregistered topic)]).
Proof.
  intros Hsub Hb. split; [by apply handle_message_unbound |].
  rewrite on_message_unfold. apply handle_message_unbound; simpl.
  - by rewrite lookup_insert_ne.
  - done.
Qed.

(** C1. The key the listener writes is [recieved_at]; the key
    [received_at] is left as the inbound frame had it. *)
Theorem on_message_stamps_recieved_at frame s :
  let stamped : Headers :=
    <["recieved_at" := pretty (now_ms s)]> (headers frame) in
  on_message frame s
  = _handle_message {| headers := stamped; body := body frame |} (ticked s)
  ∧ stamped !! "recieved_at" = Some (pretty (now_ms s))
  ∧ stamped !! "received_at" = headers frame !! "received_at".
Proof.
  intros stamped. split; [apply on_message_unfold |]. subst stamped.
  split; [by rewrite lookup_insert_eq | by rewrite lookup_insert_ne].
Qed.

End Dispatch.

Lemma version_mismatch_raises_witness :
  on_message (Sample.order_frame "2.0") (Sample.subscribed Sample.on_order)
  = (Raise VersionMismatchException,
     ticked (Sample.subscribed Sample.on_order)).
Proof.
  apply (version_mismatch_raises (Sample.order_frame "2.0") "orders"
           (Sample.subscribed Sample.on_order)).
  - reflexivity.
  - split; vm_compute; eauto.
  - vm_compute. discriminate.
Defined.

Lemma dispatch_truncates_to_required_witness :
  _handle_message (Sample.order_frame "1.0")
    (Sample.subscribed Sample.on_order)
  = (Ok tt,
     with_events (Sample.subscribed Sample.on_order)
       [SchemaDeserialize "orders" "id=5,qty=2";
        Call Sample.on_order
          [VMsg [("id", 5); ("qty", 2)]; VStr "orders"] []]).
Proof.
  apply (dispatch_truncates_to_required (Sample.order_frame "1.0") "orders"
           Sample.Order "1.0" [("id", 5); ("qty", 2)] Sample.on_order
           (Sample.subscribed Sample.on_order)).
  - reflexivity.
  - reflexivity.
  - reflexivity.
  - reflexivity.
  - reflexivity.
  - reflexivity.
  - apply no_var_positional_by_test. reflexivity.
  - vm_compute. lia.
Defined.

(** C3 as stated fails on a callback of four required parameters, which
    has no [*args] collector: it is not called at all. *)
Lemma four_parameter_callback_not_called :
  ¬ accepts_var_positional Sample.on_four
  ∧ required_positional_count Sample.on_four = 4%nat
  ∧ _callbacks (self (Sample.subscribed Sample.on_four)) !! "orders"
    = Some Sample.on_four
  ∧ (_handle_message (Sample.order_frame "1.0")
       (Sample.subscribed Sample.on_four)).1
    = Raise (SignatureException 4 3)
  ∧ List.filter is_call
      (trace (world (_handle_message (Sample.order_frame "1.0")
                       (Sample.subscribed Sample.on_four)).2))
    = [].
Proof.
  split; [apply no_var_positional_by_test; reflexivity |].
  repeat split; reflexivity.
Qed.

Lemma too_many_required_raises_witness :
  _handle_message (Sample.order_frame "1.0")
    (Sample.subscribed Sample.on_four)
  = (Raise (SignatureException
              (required_positional_count Sample.on_four) 3),
     with_events (Sample.subscribed Sample.on_four)
       [SchemaDeserialize "orders" "id=5,qty=2"]).
Proof.
  apply (too_many_required_raises (Sample.order_frame "1.0") "orders"
           Sample.Order "1.0" [("id", 5); ("qty", 2)] Sample.on_four
           (Sample.subscribed Sample.on_four)).
  - reflexivity.
  - reflexivity.
  - reflexivity.
  - reflexivity.
  - reflexivity.
  - reflexivity.
  - apply no_var_positional_by_test. reflexivity.
  - vm_compute. lia.
Defined.

Lemma unregistered_topic_dropped_witness :
  on_message (Sample.order_frame "1.0") (Sample.state0 Sample.down)
  = (Ok tt,
     with_events (ticked (Sample.state0 Sample.down))
       [Log WARNING (LogUnregistered "orders")]).
Proof.
  apply (unregistered_topic_dropped (Sample.order_frame "1.0") "orders"
           (Sample.state0 Sample.down)).
  - reflexivity.
  - intros [[x Hx] _]. simpl in Hx. by rewrite lookup_empty in Hx.
Defined.

(** C9 as stated fails on a bound topic whose callback has been removed
    by [unsubscribe]: the frame is deserialized and the lookup of the
    callback raises [KeyError]. *)
Lemma unsubscribed_topic_frame_raises :
  headers (Sample.order_frame "1.0") !! "subscription" = Some "orders"
  ∧ _callbacks (self Sample.unsubscribed) !! "orders" = None
  ∧ (on_message (Sample.order_frame "1.0") Sample.unsubscribed).1
    = Raise (KeyError "orders")
  ∧ List.filter is_deserialize
      (trace (world (on_message (Sample.order_frame "1.0")
                       Sample.unsubscribed).2))
    = [SchemaDeserialize "orders" "id=5,qty=2"].
Proof. repeat split; reflexivity. Qed.

(** The callback of a delivered frame is handed headers that hold
    [recieved_at] and not [received_at]. *)
Lemma delivered_headers_lack_received_at :
  ∃ h : Headers,
    last (trace (world (on_message (Sample.order_frame "1.0")
                          (Sample.subscribed Sample.on_order_full)).2))
    = Some (Call Sample.on_order_full
              [VMsg [("id", 5); ("qty", 2)]; VStr "orders"; VHeaders h] [])
    ∧ h !! "received_at" = None
    ∧ h !! "recieved_at" = Some "1700000000000"
    ∧ dom h = {["subscription"; "version"; "recieved_at"]}.
Proof.
  eexists. split; [reflexivity |].
  split; [reflexivity |]. split; [reflexivity |].
  vm_compute. reflexivity.
Qed.

(** ** Subscriptions *)

Section Subscriptions.
Context {payload msg : Type}.
Implicit Types (s : State payload msg) (topic : string).
Implicit Types (callback : Callable).

Lemma subscribe_first topic callback s :
  bound (self s) topic ->
  _callbacks (self s) !! topic = None ->
  subscribe topic callback s
  = (Ok tt,
     with_events
       (with_callbacks s (<[topic := callback]> (_callbacks (self s))))
       [ConnSubscribe topic topic; Log INFO (LogSubscribed topic callback)]).
Proof.
  intros Hb Hc. unfold subscribe. unfold mbind, M_bind, bind at 1.
  rewrite ensure_bound by done. unfold_monad.
  rewrite bool_decide_eq_true_2 by by apply not_elem_of_dom.
  unfold with_events, with_callbacks. simpl. by rewrite <- app_assoc.
Qed.

Lemma subscribe_again topic callback s :
  bound (self s) topic ->
  is_Some (_callbacks (self s) !! topic) ->
  subscribe topic callback s
  = (Ok tt,
     with_events
       (with_callbacks s (<[topic := callback]> (_callbacks (self s))))
       [Log INFO (LogSubscribed topic callback)]).
Proof.
  intros Hb Hc. unfold subscribe. unfold mbind, M_bind, bind at 1.
  rewrite ensure_bound by done. unfold_monad.
  rewrite bool_decide_eq_false_2; [done |].
  intros Hn. apply not_elem_of_dom in Hn. rewrite Hn in Hc.
  by destruct Hc.
Qed.

Lemma transport_subscribes_app topic (tr1 tr2 : list (Event payload msg)) :
  transport_subscribes topic (tr1 ++ tr2)%list
  = (transport_subscribes topic tr1 + transport_subscribes topic tr2)%nat.
Proof.
  unfold transport_subscribes. by rewrite List.filter_app, length_app.
Qed.

(** C7. On a bound topic without a subscription entry, [subscribe] with
    [cb1] and then with [cb2] both return; the first adds the
    transport-level subscribe (destination and id the topic) and its log
    record to the trace, the second adds its log record only, so the
    trace gains one transport-level subscribe for the topic; and the
    callback dictionary ends as the old one with [cb2] at the topic. *)
Theorem resubscribe_replaces_callback topic (cb1 cb2 : Callable) s :
  bound (self s) topic ->
  _callbacks (self s) !! topic = None ->
  ∃ s1 s2,
    subscribe topic cb1 s = (Ok tt, s1)
    ∧ subscribe topic cb2 s1 = (Ok tt, s2)
    ∧ trace (world s1)
      = (trace (world s)
         ++ [ConnSubscribe topic topic;
             Log INFO (LogSubscribed topic cb1)])%list
    ∧ trace (world s2)
      = (trace (world s1) ++ [Log INFO (LogSubscribed topic cb2)])%list
    ∧ transport_subscribes topic (trace (world s2))
      = S (transport_subscribes topic (trace (world s)))
    ∧ _callbacks (self s2) = <[topic := cb2]> (_callbacks (self s))
    ∧ _callbacks (self s2) !! topic = Some cb2.
Proof.
  intros Hb Hc.
  eexists. eexists.
  split; [by apply subscribe_first |].
  split.
  { apply subscribe_again; simpl; [done |]. rewrite lookup_insert_eq. eauto. }
  split; [done |]. split; [done |].
  split.
  { simpl. rewrite !transport_subscribes_app.
    unfold transport_subscribes at 2 3. simpl.
    rewrite bool_decide_eq_true_2 by done. simpl. lia. }
  split.
  { simpl. by rewrite insert_insert_eq. }
  simpl. by rewrite lookup_insert_eq.
Qed.

(** C10. On a bound topic without a subscription entry, [unsubscribe]
    calls the transport's [unsubscribe] for the topic, logs, and then
    raises [KeyError] on the removal of the absent entry: the call fails
    with the transport call already made. *)
Theorem unsubscribe_without_entry topic s :
  bound (self s) topic ->
  _callbacks (self s) !! topic = None ->
  unsubscribe topic s
  = (Raise (KeyError topic),
     with_events s
       [ConnUnsubscribe topic; Log INFO (LogUnsubscribed topic)]).
Proof.
  intros Hb Hc. unfold unsubscribe. unfold mbind, M_bind, bind at 1.
  rewrite ensure_bound by done. unfold_monad. simpl. rewrite Hc.
  unfold with_events. simpl. by rewrite <- app_assoc.
Qed.

End Subscriptions.

Lemma resubscribe_replaces_callback_witness :
  ∃ s1 s2,
    subscribe "orders" Sample.on_tick Sample.registered = (Ok tt, s1)
    ∧ subscribe "orders" Sample.on_order s1 = (Ok tt, s2)
    ∧ transport_subscribes "orders" (trace (world s2)) = 1%nat
    ∧ _callbacks (self s2) !! "orders" = Some Sample.on_order.
Proof.
  destruct (resubscribe_replaces_callback "orders" Sample.on_tick
              Sample.on_order Sample.registered)
    as (s1 & s2 & H1 & H2 & _ & _ & Hn & _ & Hcb).
  - split; vm_compute; eauto.
  - reflexivity.
  - exists s1, s2. repeat split; [exact H1 | exact H2 | exact Hn | exact Hcb].
Defined.

Lemma unsubscribe_without_entry_witness :
  unsubscribe "orders" Sample.registered
  = (Raise (KeyError "orders"),
     with_events Sample.registered
       [ConnUnsubscribe "orders"; Log INFO (LogUnsubscribed "orders")]).
Proof.
  apply (unsubscribe_without_entry "orders" Sample.registered).
  - split; vm_compute; eauto.
  - reflexivity.
Defined.

(** ** Connecting *)

Section Connecting.
Context {payload msg : Type}.
Implicit Types (s : State payload msg).
Implicit Types (username password : option string).
Implicit Types (retry_limit retries : Z) (err : nat -> Exception).

Lemma connect_round_refused username password retry_limit retries err s :
  refuses (connect_outcome (world s)) err (attempts (world s)) ->
  connect_round username password retry_limit retries s
  = (if bool_decide (retries + 1 = retry_limit)
     then Raise (could_not_connect (err (attempts (world s))))
     else Ok (Next (retries + 1)),
     after_attempts s 1 (connected (world s))
       (failed_round username password (err (attempts (world s))))).
Proof.
  intros (Hout & message & cause & He).
  unfold connect_round, try_except, conn_connect. unfold_monad. simpl.
  rewrite Hout. simpl. rewrite He. simpl.
  unfold after_attempts, failed_round, could_not_connect. simpl.
  rewrite <- !app_assoc. simpl.
  by destruct (bool_decide (retries + 1 = retry_limit)).
Qed.

Lemma connect_round_accepted username password retry_limit retries s :
  connect_outcome (world s) (attempts (world s)) = Ok tt ->
  connect_round username password retry_limit retries s
  = (Ok Break,
     after_attempts s 1 true
       [ConnConnect username password; Log INFO LogConnected]).
Proof.
  intros Hout.
  unfold connect_round, try_except, conn_connect. unfold_monad. simpl.
  rewrite Hout. simpl.
  unfold after_attempts. simpl. by rewrite <- !app_assoc.
Qed.

(** A round that falls through has counted one more retry. *)
Lemma connect_round_next username password retry_limit retries s r s' :
  connect_round username password retry_limit retries s = (Ok (Next r), s') ->
  r = retries + 1.
Proof.
  unfold connect_round, try_except, conn_connect. unfold_monad. simpl.
  destruct (connect_outcome (world s) (attempts (world s))) as [[] | e];
    simpl; [discriminate |].
  destruct e; simpl; try discriminate.
  destruct (bool_decide (retries + 1 = retry_limit)); [discriminate |].
  by intros [= <- _].
Qed.

(** The fuel [connect] gives its loop is never used up. *)
Lemma connect_loop_fuel_enough username password retry_limit :
  ∀ fuel retries s,
    (Z.to_nat (retry_limit - retries) ≤ fuel)%nat ->
    (connect_loop fuel username password retry_limit retries s).1 ≠ Ok None.
Proof.
  induction fuel as [| fuel IH]; intros retries s Hfuel; simpl.
  - rewrite bool_decide_eq_false_2 by lia. done.
  - case_bool_decide as Hlt; [| done].
    unfold mbind, M_bind, bind.
    destruct (connect_round username password retry_limit retries s)
      as [[[| r] | e] s'] eqn:Hround; simpl; try done.
    apply connect_round_next in Hround as ->.
    apply IH. lia.
Qed.

Lemma connect_fuel_enough username password retry_limit s :
  (connect username password retry_limit s).1 ≠ Ok None.
Proof. apply connect_loop_fuel_enough. lia. Qed.

Lemma after_attempts_0 s :
  after_attempts s 0 (connected (world s)) [] = s.
Proof.
  destruct s as [p [c t o r a b tr]]. unfold after_attempts. simpl.
  by rewrite app_nil_r.
Qed.

Lemma after_attempts_more s (k1 k2 : nat) (b1 b2 : bool)
    (evs1 evs2 : list (Event payload msg)) :
  after_attempts (after_attempts s k1 b1 evs1) k2 b2 evs2
  = after_attempts s (k1 + k2) b2 (evs1 ++ evs2).
Proof.
  unfold after_attempts. simpl. rewrite <- app_assoc.
  by replace (k2 + (k1 + attempts (world s)))%nat
    with (k1 + k2 + attempts (world s))%nat by lia.
Qed.

(** [n] refused attempts that do not use up the retries take the loop
    [n] rounds further. *)
Lemma connect_loop_refused username password retry_limit err (n : nat) :
  ∀ fuel retries s,
    (∀ j, (attempts (world s) ≤ j < attempts (world s) + n)%nat ->
          refuses (connect_outcome (world s)) err j) ->
    retries + Z.of_nat n < retry_limit ->
    connect_loop (n + fuel) username password retry_limit retries s
    = connect_loop fuel username password retry_limit
        (retries + Z.of_nat n)
        (after_attempts s n (connected (world s))
           (failed_rounds username password err (attempts (world s)) n)).
Proof.
  induction n as [| n IH]; intros fuel retries s Href Hlt.
  - unfold failed_rounds. simpl. rewrite after_attempts_0.
    by rewrite Z.add_0_r.
  - change (S n + fuel)%nat with (S (n + fuel)).
    cbn [connect_loop].
    rewrite bool_decide_eq_true_2 by lia.
    unfold mbind, M_bind, bind.
    rewrite (connect_round_refused _ _ _ _ err) by (apply Href; lia).
    rewrite bool_decide_eq_false_2 by lia.
    rewrite IH; simpl.
    + rewrite after_attempts_more.
      by replace (retries + 1 + Z.of_nat n) with (retries + Z.of_nat (S n))
        by lia.
    + intros j Hj. apply Href. lia.
    + lia.
Qed.

(** Refused on every attempt, [connect] gives up at the limit. *)
Lemma connect_exhausts username password err (n : nat) s :
  (∀ j, refuses (connect_outcome (world s)) err j) ->
  connect username password (Z.of_nat (S n)) s
  = (Raise (could_not_connect (err (attempts (world s) + n)%nat)),
     after_attempts s (S n) (connected (world s))
       (failed_rounds username password err (attempts (world s)) (S n))).
Proof.
  intros Href. unfold connect.
  rewrite Nat2Z.id. replace (S n) with (n + 1)%nat at 1 by lia.
  rewrite (connect_loop_refused _ _ _ err) by (intros; first [apply Href | lia]).
  cbn [connect_loop]. rewrite bool_decide_eq_true_2 by lia.
  unfold mbind, M_bind, bind.
  rewrite (connect_round_refused _ _ _ _ err) by apply Href.
  rewrite bool_decide_eq_true_2 by lia.
  rewrite after_attempts_more. simpl.
  unfold failed_rounds.
  rewrite seq_S, fmap_app, concat_app. simpl.
  rewrite (Nat.add_comm n 1). simpl.
  by rewrite (Nat.add_comm n).
Qed.

(** Accepted on attempt [k] after [k] refusals, with [k] below the
    limit, [connect] returns and makes no further attempt. *)
Lemma connect_succeeds username password retry_limit err (k : nat) s :
  Z.of_nat k < retry_limit ->
  (∀ j, (attempts (world s) ≤ j < attempts (world s) + k)%nat ->
        refuses (connect_outcome (world s)) err j) ->
  connect_outcome (world s) (attempts (world s) + k)%nat = Ok tt ->
  connect username password retry_limit s
  = (Ok (Some tt),
     after_attempts s (S k) true
       (failed_rounds username password err (attempts (world s)) k
        ++ [ConnConnect username password; Log INFO LogConnected])).
Proof.
  intros Hk Href Hok. unfold connect.
  replace (Z.to_nat retry_limit)
    with (k + S (Z.to_nat retry_limit - S k))%nat by lia.
  destruct (decide (k = 0%nat)) as [-> | Hpos].
  - simpl. rewrite bool_decide_eq_true_2 by lia.
    unfold mbind, M_bind, bind.
    rewrite connect_round_accepted
      by (by rewrite Nat.add_0_r in Hok).
    done.
  - rewrite (connect_loop_refused _ _ _ err) by (done || lia).
    cbn [connect_loop]. rewrite bool_decide_eq_true_2 by lia.
    unfold mbind, M_bind, bind.
    rewrite connect_round_accepted
      by (simpl; by rewrite (Nat.add_comm k)).
    simpl. unfold after_attempts. simpl. by rewrite <- app_assoc.
Qed.

(** C4. With [retry_limit = 8]: when the transport refuses every
    attempt, [connect] makes 8 attempts, each followed by its error log
    and a sleep of 1, and then raises a [ConnectFailedException] whose
    cause is the exception of the last attempt; when the transport
    accepts attempt [k < 8] after refusing the ones before, [connect]
    returns after [k] such rounds and the accepted attempt, with no
    attempt after it. *)
Theorem connect_retry_contract username password err s :
  let a := attempts (world s) in
  ((∀ j, refuses (connect_outcome (world s)) err j) ->
   connect username password 8 s
   = (Raise (could_not_connect (err (a + 7)%nat)),
      after_attempts s 8 (connected (world s))
        (failed_rounds username password err a 8)))
  ∧ (∀ k : nat,
       (k < 8)%nat ->
       (∀ j, (a ≤ j < a + k)%nat ->
             refuses (connect_outcome (world s)) err j) ->
       connect_outcome (world s) (a + k)%nat = Ok tt ->
       connect username password 8 s
       = (Ok (Some tt),
          after_attempts s (S k) true
            (failed_rounds username password err a k
             ++ [ConnConnect username password; Log INFO LogConnected]))).
Proof.
  intros a. split.
  - intros Href. by apply (connect_exhausts username password err 7).
  - intros k Hk Href Hok. apply connect_succeeds; [lia | done | done].
Qed.

End Connecting.

Lemma connect_retry_contract_witness :
  connect None None 8 (Sample.state0 Sample.down)
  = (Raise (could_not_connect Sample.refused),
     after_attempts (Sample.state0 Sample.down) 8 false
       (failed_rounds None None (λ _, Sample.refused) 0 8))
  ∧ connect None None 8 (Sample.state0 Sample.up_at_third)
    = (Ok (Some tt),
       after_attempts (Sample.state0 Sample.up_at_third) 3 true
         (failed_rounds None None (λ _, Sample.refused) 0 2
          ++ [ConnConnect None None; Log INFO LogConnected])).
Proof.
  split.
  - apply (proj1 (connect_retry_contract None None (λ _, Sample.refused)
                    (Sample.state0 Sample.down))).
    intros j. split; [reflexivity |]. by eexists _, _.
  - apply (proj2 (connect_retry_contract None None (λ _, Sample.refused)
                    (Sample.state0 Sample.up_at_third)) 2%nat).
    + lia.
    + intros j Hj. simpl in Hj. split; [| by eexists _, _].
      simpl. unfold Sample.up_at_third.
      by rewrite bool_decide_eq_false_2 by lia.
    + reflexivity.
Defined.

(** A callback without parameters is called without arguments. *)
Example zero_parameter_callback :
  last (trace (world (_handle_message (Sample.order_frame "1.0")
                        (Sample.subscribed Sample.on_tick)).2))
  = Some (Call Sample.on_tick [] []).
Proof. reflexivity. Qed.

(** The scenario of the specification: [orders] at version [1.0], fields
    [id = 5] and [qty = 2]. *)
Example send_orders_scenario :
  ∃ hdrs : Headers,
    List.filter is_conn_send
      (trace (world (send "orders" [("id", 5); ("qty", 2)]
                       Sample.registered).2))
    = [ConnSend "orders" "id=5,qty=2" hdrs]
    ∧ hdrs !! "version" = Some "1.0"
    ∧ hdrs !! "service" = Some "shop"
    ∧ hdrs !! "sent_at" = Some "1700000000000".
Proof. eexists. repeat split; reflexivity. Qed.

(** * Further properties *)

(** ** Registration and start-up *)

Section Registration.
Context {payload msg : Type}.
Implicit Types (s : State payload msg) (topic : string).
Implicit Types (entry_points : list (gmap string (Schema payload msg) * string)).

(** X1. A registration call overwrites both bindings of its topic and leaves
    every other topic, the callbacks and the world alone. *)
Theorem register_topic_last_write_wins topic
    (msg_class : Schema payload msg) (version : string) s :
  ∃ s', register_topic topic msg_class version s = (Ok tt, s')
        ∧ _topics (self s') !! topic = Some msg_class
        ∧ _msg_versions (self s') !! topic = Some version
        ∧ (∀ other, other ≠ topic ->
             _topics (self s') !! other = _topics (self s) !! other
             ∧ _msg_versions (self s') !! other
               = _msg_versions (self s) !! other)
        ∧ _callbacks (self s') = _callbacks (self s)
        ∧ world s' = world s.
Proof.
  eexists. split; [reflexivity |]. simpl.
  rewrite !lookup_insert_eq. repeat split; try done.
  - by rewrite lookup_insert_ne.
  - by rewrite lookup_insert_ne.
Qed.

Lemma register_topics_lookup (topics : gmap string (Schema payload msg))
    (version : string) s :
  ∃ s', register_topics topics version s = (Ok tt, s')
        ∧ (∀ topic,
             _topics (self s') !! topic
             = match topics !! topic with
               | Some msg_class => Some msg_class
               | None => _topics (self s) !! topic
               end
             ∧ _msg_versions (self s') !! topic
               = match topics !! topic with
                 | Some _ => Some version
                 | None => _msg_versions (self s) !! topic
                 end)
        ∧ _callbacks (self s') = _callbacks (self s)
        ∧ _service (self s') = _service (self s)
        ∧ world s' = world s.
Proof.
  eexists. split; [reflexivity |]. simpl. repeat split; try done.
  - rewrite lookup_union. destruct (topics !! topic) as [sc |] eqn:E.
    + by destruct (_topics (self s) !! topic).
    + by destruct (_topics (self s) !! topic).
  - rewrite lookup_union, lookup_fmap.
    destruct (topics !! topic) as [sc |] eqn:E; simpl.
    + by destruct (_msg_versions (self s) !! topic).
    + by destruct (_msg_versions (self s) !! topic).
Qed.

(** X2. The bulk call binds every topic of the batch to the batch's schema
    and to the one version given, and leaves the topics outside the
    batch, the callbacks and the world alone. *)
Theorem register_topics_merges (topics : gmap string (Schema payload msg))
    (version : string) s :
  ∃ s', register_topics topics version s = (Ok tt, s')
        ∧ (∀ topic msg_class, topics !! topic = Some msg_class ->
             _topics (self s') !! topic = Some msg_class
             ∧ _msg_versions (self s') !! topic = Some version)
        ∧ (∀ topic, topics !! topic = None ->
             _topics (self s') !! topic = _topics (self s) !! topic
             ∧ _msg_versions (self s') !! topic
               = _msg_versions (self s) !! topic)
        ∧ _callbacks (self s') = _callbacks (self s)
        ∧ world s' = world s.
Proof.
  destruct (register_topics_lookup topics version s)
    as (s' & E & Hl & Hc & _ & Hw).
  exists s'. split; [done |]. split; [| split; [| done]].
  - intros topic msg_class Ht. destruct (Hl topic) as [H1 H2].
    by rewrite H1, H2, Ht.
  - intros topic Ht. destruct (Hl topic) as [H1 H2].
    by rewrite H1, H2, Ht.
Qed.

(** X3. The bulk call on a batch of one topic is the single call. *)
Theorem register_topics_singleton topic (msg_class : Schema payload msg)
    (version : string) s :
  register_topics {[topic := msg_class]} version s
  = register_topic topic msg_class version s.
Proof.
  unfold register_topics, register_topic. unfold_monad. simpl.
  by rewrite map_fmap_singleton, <- !insert_union_singleton_l.
Qed.

Lemma load_topics_frame entry_points :
  ∀ s, ∃ s',
    _load_topics entry_points s = (Ok tt, s')
    ∧ _callbacks (self s') = _callbacks (self s)
    ∧ _service (self s') = _service (self s)
    ∧ world s' = world s
    ∧ dom (_topics (self s'))
      = dom (_topics (self s)) ∪ ⋃ ((λ ep, dom ep.1) <$> entry_points)
    ∧ dom (_msg_versions (self s'))
      = dom (_msg_versions (self s)) ∪ ⋃ ((λ ep, dom ep.1) <$> entry_points)
    ∧ (∀ topic, (∀ ep, ep ∈ entry_points -> ep.1 !! topic = None) ->
         _topics (self s') !! topic = _topics (self s) !! topic
         ∧ _msg_versions (self s') !! topic = _msg_versions (self s) !! topic).
Proof.
  induction entry_points as [| ep rest IH]; intros s.
  - exists s. simpl. rewrite !union_empty_r_L. by repeat split.
  - destruct (register_topics_lookup ep.1 ep.2 s)
      as (s1 & E1 & Hl1 & Hc1 & Hs1 & Hw1).
    destruct (IH s1) as (s2 & E2 & Hc2 & Hs2 & Hw2 & Hd2 & Hv2 & Hn2).
    exists s2.
    assert (dom (_topics (self s1)) = dom ep.1 ∪ dom (_topics (self s)))
      as Hd1.
    { apply set_eq. intros t. rewrite elem_of_union, !elem_of_dom.
      destruct (Hl1 t) as [-> _]. destruct (ep.1 !! t) eqn:E.
      - split; eauto.
      - split; [eauto |]. intros [[x Hx] | H]; [done | done]. }
    assert (dom (_msg_versions (self s1))
            = dom ep.1 ∪ dom (_msg_versions (self s))) as Hdv1.
    { apply set_eq. intros t. rewrite elem_of_union, !elem_of_dom.
      destruct (Hl1 t) as [_ ->]. destruct (ep.1 !! t) eqn:E.
      - split; eauto.
      - split; [eauto |]. intros [[x Hx] | H]; [done | done]. }
    split.
    { simpl. unfold mbind, M_bind, bind. by rewrite E1. }
    split; [congruence |]. split; [congruence |]. split; [congruence |].
    split; [| split].
    + rewrite Hd2, Hd1. simpl.
      rewrite (comm_L (∪) (dom ep.1)). by rewrite <- (assoc_L (∪)).
    + rewrite Hv2, Hdv1. simpl.
      rewrite (comm_L (∪) (dom ep.1)). by rewrite <- (assoc_L (∪)).
    + intros topic Hnone.
      destruct (Hn2 topic) as [-> ->].
      { intros ep' Hin. apply Hnone. by right. }
      destruct (Hl1 topic) as [-> ->].
      by rewrite (Hnone ep) by left.
Qed.

Lemma load_topics_app entry_points1 entry_points2 s :
  _load_topics (entry_points1 ++ entry_points2) s
  = (_load_topics entry_points1;; _load_topics entry_points2) s.
Proof.
  revert s. induction entry_points1 as [| ep rest IH]; intros s; [done |].
  simpl. unfold mbind, M_bind, bind.
  destruct (register_topics ep.1 ep.2 s) as [[[] | e] s1]; [| done].
  apply IH.
Qed.

Lemma init_run service (load_topics : bool) entry_points s :
  __init__ service load_topics entry_points s
  = match (if load_topics then _load_topics entry_points else mret tt)
            {| self := new_pigeon service; world := world s |} with
    | (Ok _, s1) => (Ok tt, with_callbacks s1 ∅)
    | (Raise e, s1) => (Raise e, s1)
    end.
Proof. done. Qed.


(** X5. Entry points are loaded in order: the schema and version of a topic
    are those of the last entry point that names it. *)
Theorem init_last_entry_point_wins service entry_points1
    (ep : gmap string (Schema payload msg) * string) entry_points2
    topic msg_class s :
  ep.1 !! topic = Some msg_class ->
  (∀ ep', ep' ∈ entry_points2 -> ep'.1 !! topic = None) ->
  ∃ s', __init__ service true (entry_points1 ++ ep :: entry_points2) s
        = (Ok tt, s')
        ∧ _topics (self s') !! topic = Some msg_class
        ∧ _msg_versions (self s') !! topic = Some ep.2.
Proof.
  intros Hep Hlater. rewrite init_run.
  rewrite load_topics_app. unfold mbind, M_bind, bind.
  destruct (load_topics_frame entry_points1
              {| self := new_pigeon service; world := world s |})
    as (s1 & E1 & _).
  rewrite E1. cbn [_load_topics]. unfold mbind, M_bind, bind.
  destruct (register_topics_lookup ep.1 ep.2 s1) as (s2 & E2 & Hl2 & _).
  rewrite E2.
  destruct (load_topics_frame entry_points2 s2)
    as (s3 & E3 & _ & _ & _ & _ & _ & Hn3).
  rewrite E3. eexists. split; [reflexivity |]. simpl.
  destruct (Hn3 topic Hlater) as [-> ->].
  destruct (Hl2 topic) as [-> ->]. by rewrite Hep.
Qed.

End Registration.

Lemma init_last_entry_point_wins_witness :
  ∃ s', __init__ "shop" true
          [({["orders" := Sample.Order]}, "0.9");
           ({["orders" := Sample.Order]}, "1.0");
           (∅, "2.0")]
          (Sample.state0 Sample.down)
        = (Ok tt, s')
        ∧ _msg_versions (self s') !! "orders" = Some "1.0".
Proof.
  destruct (init_last_entry_point_wins "shop"
              [({["orders" := Sample.Order]}, "0.9")]
              ({["orders" := Sample.Order]}, "1.0")
              [(∅, "2.0")] "orders" Sample.Order
              (Sample.state0 Sample.down))
    as (s' & E & _ & Hv).
  - reflexivity.
  - intros ep' Hin. apply list_elem_of_singleton in Hin as ->. reflexivity.
  - exists s'. split; [exact E | exact Hv].
Defined.

(** ** Sending, continued *)

Section SendingFailures.
Context {payload msg : Type}.
Implicit Types (s : State payload msg) (topic : string).

Lemma send_after_guard s topic (data : payload) msg_class version :
  _topics (self s) !! topic = Some msg_class ->
  _msg_versions (self s) !! topic = Some version ->
  send topic data s
  = match construct msg_class data with
    | Raise e => (Raise e, with_events s [SchemaConstruct topic data])
    | Ok m =>
        match serialize msg_class m with
        | Raise e =>
            (Raise e,
             with_events s
               [SchemaConstruct topic data; SchemaSerialize topic m])
        | Ok serialized_data =>
            (Ok tt,
             with_events (ticked s)
               [SchemaConstruct topic data; SchemaSerialize topic m;
                ConnSend topic serialized_data
                  (<["service" := _service (self s)]>
                     (<["version" := version]>
                        (<["sent_at" := pretty (now_ms s)]> ∅)));
                Log DEBUG (LogSent topic serialized_data)])
        end
    end.
Proof.
  intros Ht Hv. unfold send. unfold mbind, M_bind, bind at 1.
  rewrite ensure_bound by (split; eauto).
  unfold_monad. rewrite Ht. simpl.
  destruct (construct msg_class data) as [m | e]; simpl; [| done].
  destruct (serialize msg_class m) as [serialized_data | e]; simpl.
  - rewrite Hv. simpl. unfold with_events, ticked. simpl.
    by rewrite <- !app_assoc.
  - unfold with_events. simpl. by rewrite <- !app_assoc.
Qed.

Lemma send_guarded s topic (data : payload) :
  ¬ bound (self s) topic ->
  send topic data s = (Raise (NoSuchTopicException topic), s).
Proof.
  intros Hb. unfold send. unfold mbind, M_bind, bind at 1.
  by rewrite ensure_unbound.
Qed.

(** X7. An exception of the message class, raised while the message is
    built from the fields or while it is serialized, leaves [send] as it
    is, and the transport's [send] has not been called. *)
Theorem send_schema_failure s topic (data : payload) msg_class version e :
  _topics (self s) !! topic = Some msg_class ->
  _msg_versions (self s) !! topic = Some version ->
  (construct msg_class data = Raise e
   ∨ ∃ m, construct msg_class data = Ok m ∧ serialize msg_class m = Raise e) ->
  (send topic data s).1 = Raise e
  ∧ self (send topic data s).2 = self s
  ∧ List.filter is_transport (trace (world (send topic data s).2))
    = List.filter is_transport (trace (world s)).
Proof.
  intros Ht Hv Hfail.
  rewrite (send_after_guard s topic data msg_class version) by done.
  destruct Hfail as [Hc | (m & Hc & Hs)].
  - rewrite Hc. simpl. split; [done |]. split; [done |].
    rewrite List.filter_app. simpl. by rewrite app_nil_r.
  - rewrite Hc, Hs. simpl. split; [done |]. split; [done |].
    rewrite List.filter_app. simpl. by rewrite app_nil_r.
Qed.

(** X8. Whatever it returns or raises, [send] leaves the client's
    attributes as they were and calls the transport once at most, and
    then its [send]. *)
Theorem send_keeps_client s topic (data : payload) :
  self (send topic data s).2 = self s
  ∧ (List.filter is_transport (trace (world (send topic data s).2))
     = List.filter is_transport (trace (world s))
     ∨ ∃ serialized_data hdrs,
         (send topic data s).1 = Ok tt
         ∧ List.filter is_transport (trace (world (send topic data s).2))
           = (List.filter is_transport (trace (world s))
              ++ [ConnSend topic serialized_data hdrs])%list).
Proof.
  destruct (_topics (self s) !! topic) as [msg_class |] eqn:Ht;
    [destruct (_msg_versions (self s) !! topic) as [version |] eqn:Hv |].
  - rewrite (send_after_guard s topic data msg_class version) by done.
    destruct (construct msg_class data) as [m | e]; simpl.
    + destruct (serialize msg_class m) as [serialized_data | e]; simpl.
      * split; [done |]. right. eexists _, _. split; [done |].
        by rewrite List.filter_app.
      * split; [done |]. left. rewrite List.filter_app. simpl.
        by rewrite app_nil_r.
    + split; [done |]. left. rewrite List.filter_app. simpl.
      by rewrite app_nil_r.
  - rewrite send_guarded by (intros [_ [x Hx]]; congruence).
    simpl. split; [done | by left].
  - rewrite send_guarded by (intros [[x Hx] _]; congruence).
    simpl. split; [done | by left].
Qed.

End SendingFailures.

Lemma send_wire_contract_witness :
  ∃ hdrs : Headers,
    send "orders" [("id", 5); ("qty", 2)] Sample.registered
    = (Ok tt,
       with_events (ticked Sample.registered)
         [SchemaConstruct "orders" [("id", 5); ("qty", 2)];
          SchemaSerialize "orders" [("id", 5); ("qty", 2)];
          ConnSend "orders" "id=5,qty=2" hdrs;
          Log DEBUG (LogSent "orders" "id=5,qty=2")])
    ∧ dom hdrs = {["service"; "version"; "sent_at"]}.
Proof.
  destruct (send_wire_contract Sample.registered "orders"
              [("id", 5); ("qty", 2)] Sample.Order "1.0"
              [("id", 5); ("qty", 2)] "id=5,qty=2")
    as (hdrs & E & Hd & _); try reflexivity.
  exists hdrs. split; [exact E | exact Hd].
Defined.

Lemma send_schema_failure_witness :
  (send "orders" [("id", 5)] Sample.registered).1
  = Raise (SchemaException "validation error").
Proof.
  apply (send_schema_failure Sample.registered "orders" [("id", 5)]
           Sample.Order "1.0" (SchemaException "validation error")).
  - reflexivity.
  - reflexivity.
  - left. reflexivity.
Defined.

(** ** Adaptive invocation, continued *)

Section Keywords.
Context {payload msg : Type}.
Implicit Types (s : State payload msg) (func : Callable).
Implicit Types (args : list (Value msg)) (kwargs : list (string * Value msg)).

Lemma var_keyword_test func :
  true ∉ (λ param, bool_decide (kind param = VAR_KEYWORD))
         <$> parameters func
  ↔ ¬ accepts_var_keyword func.
Proof.
  unfold accepts_var_keyword. rewrite list_elem_of_fmap. split.
  - intros H (param & Hin & Hk). apply H. exists param.
    split; [| done]. by rewrite bool_decide_eq_true_2.
  - intros H (param & Hk & Hin). apply H. exists param.
    split; [done |]. symmetry in Hk. by apply bool_decide_eq_true_1 in Hk.
Qed.

Lemma no_var_keyword_by_test func :
  bool_decide (true ∉ (λ param, bool_decide (kind param = VAR_KEYWORD))
                      <$> parameters func) = true ->
  ¬ accepts_var_keyword func.
Proof.
  intros H. apply var_keyword_test. by apply bool_decide_eq_true in H.
Qed.

(** What the dispatcher does, in the words of the vocabulary: the
    positional arguments are cut or the call is refused when there is no
    [*args] collector, the keyword arguments are filtered when there is
    no [**kwargs] collector. *)
Lemma call_cases func args kwargs s :
  let n := required_positional_count func in
  let kept := filter (λ kv, kv.1 ∈ allowed_keys func) kwargs in
  (¬ accepts_var_positional func ∧ (length args < n)%nat
   ∧ call_with_correct_args func args kwargs s
     = (Raise (SignatureException n (length args)), s))
  ∨ (∃ args' kwargs',
       call_with_correct_args func args kwargs s
       = (call_result (world s) func args' kwargs',
          with_events s [Call func args' kwargs'])
       ∧ (accepts_var_positional func ∧ args' = args
          ∨ ¬ accepts_var_positional func ∧ (n ≤ length args)%nat
            ∧ args' = take n args)
       ∧ (accepts_var_keyword func ∧ kwargs' = kwargs
          ∨ ¬ accepts_var_keyword func ∧ kwargs' = kept)).
Proof.
  intros n kept. subst n kept. unfold call_with_correct_args.
  unfold allowed_keys.
  destruct (bool_decide
              (true ∉ (λ param, bool_decide (kind param = VAR_POSITIONAL))
                      <$> parameters func)) eqn:Hp.
  - apply bool_decide_eq_true in Hp. apply var_positional_test in Hp.
    rewrite num_args_required by done.
    destruct (bool_decide
                (length args < required_positional_count func)%nat) eqn:Hn.
    + apply bool_decide_eq_true in Hn. left. by repeat split.
    + apply bool_decide_eq_false in Hn. right.
      unfold mbind, M_bind, bind, mret, M_ret, ret.
      rewrite invoke_result. eexists _, _. split; [reflexivity |].
      split; [right; repeat split; [done | lia] |].
      destruct (bool_decide
                  (true ∉ (λ param, bool_decide (kind param = VAR_KEYWORD))
                          <$> parameters func)) eqn:Hk.
      * apply bool_decide_eq_true in Hk. apply var_keyword_test in Hk.
        by right.
      * apply bool_decide_eq_false in Hk. left. split; [| done].
        destruct (decide (true ∉ (λ param,
                                    bool_decide (kind param = VAR_KEYWORD))
                                 <$> parameters func)) as [Hd | Hd];
          [done |].
        unfold accepts_var_keyword.
        apply dec_stable in Hd. apply list_elem_of_fmap in Hd
          as (param & Hb & Hin).
        exists param. split; [done |]. symmetry in Hb.
        by apply bool_decide_eq_true_1 in Hb.
  - apply bool_decide_eq_false in Hp. right.
    assert (accepts_var_positional func) as Hyes.
    { apply dec_stable in Hp. apply list_elem_of_fmap in Hp
        as (param & Hb & Hin).
      exists param. split; [done |]. symmetry in Hb.
      by apply bool_decide_eq_true_1 in Hb. }
    unfold mbind, M_bind, bind, mret, M_ret, ret.
    rewrite invoke_result. eexists _, _. split; [reflexivity |].
    split; [by left |].
    destruct (bool_decide
                (true ∉ (λ param, bool_decide (kind param = VAR_KEYWORD))
                        <$> parameters func)) eqn:Hk.
    + apply bool_decide_eq_true in Hk. apply var_keyword_test in Hk.
      by right.
    + apply bool_decide_eq_false in Hk. left. split; [| done].
      apply dec_stable in Hk. apply list_elem_of_fmap in Hk
        as (param & Hb & Hin).
      exists param. split; [done |]. symmetry in Hb.
      by apply bool_decide_eq_true_1 in Hb.
Qed.

(** X9. A callable without [**kwargs] is passed exactly the keyword extras
    whose key is the name of one of its parameters with a default, in
    the order given; the others are dropped. *)
Theorem call_filters_keywords func args kwargs s :
  ¬ accepts_var_keyword func ->
  (accepts_var_positional func
   ∨ (required_positional_count func ≤ length args)%nat) ->
  ∃ args' kwargs',
    call_with_correct_args func args kwargs s
    = (call_result (world s) func args' kwargs',
       with_events s [Call func args' kwargs'])
    ∧ kwargs' = filter (λ kv, kv.1 ∈ allowed_keys func) kwargs
    ∧ (∀ kv, kv ∈ kwargs'
             ↔ kv ∈ kwargs
               ∧ ∃ param, param ∈ parameters func
                          ∧ name param = kv.1
                          ∧ default param ≠ empty).
Proof.
  intros Hno Hargs.
  destruct (call_cases func args kwargs s)
    as [(Hnp & Hlt & _) | (args' & kwargs' & E & _ & Hk)].
  { destruct Hargs as [Hyes | Hle]; [done | lia]. }
  destruct Hk as [[Hyes _] | [_ ->]]; [done |].
  eexists _, _. split; [exact E |]. split; [done |].
  intros kv. rewrite list_elem_of_filter. unfold allowed_keys.
  rewrite list_elem_of_fmap. split.
  - intros [(param & Hname & Hin) Hkv]. split; [done |].
    apply list_elem_of_filter in Hin as [Hd Hin]. by exists param.
  - intros [Hkv (param & Hin & Hname & Hd)]. split; [| done].
    exists param. split; [done |]. by apply list_elem_of_filter.
Qed.

(** X10. A callable with both collectors is called on all the arguments
    given, whatever their number. *)
Theorem call_passes_everything func args kwargs s :
  accepts_var_positional func ->
  accepts_var_keyword func ->
  call_with_correct_args func args kwargs s
  = (call_result (world s) func args kwargs,
     with_events s [Call func args kwargs]).
Proof.
  intros Hp Hk.
  destruct (call_cases func args kwargs s)
    as [(Hnp & _) | (args' & kwargs' & E & Ha & Hkw)]; [done |].
  destruct Ha as [[_ ->] | [Hnp _]]; [| done].
  by destruct Hkw as [[_ ->] | [Hnk _]].
Qed.



Lemma required_by_kind func :
  required_positional_count func
  = (required_of_kind POSITIONAL_ONLY func
     + required_of_kind POSITIONAL_OR_KEYWORD func
     + required_of_kind KEYWORD_ONLY func)%nat.
Proof.
  unfold required_positional_count, required_of_kind.
  induction (parameters func) as [| param params IH]; [done |].
  rewrite !filter_cons.
  destruct param as [nm k d]. simpl.
  destruct d, k; repeat case_decide; simpl in *;
    try (exfalso; intuition congruence); lia.
Qed.

(** X12. A keyword-only parameter without a default is counted with the
    positional ones: a callable without [*args] that has [p] required
    positional and [k] required keyword-only parameters is called on
    [p + k] positional arguments. *)
Theorem keyword_only_counted func args s :
  ¬ accepts_var_positional func ->
  let p := (required_of_kind POSITIONAL_ONLY func
            + required_of_kind POSITIONAL_OR_KEYWORD func)%nat in
  let k := required_of_kind KEYWORD_ONLY func in
  (p + k ≤ length args)%nat ->
  call_with_correct_args func args [] s
  = (call_result (world s) func (take (p + k) args) [],
     with_events s [Call func (take (p + k) args) []])
  ∧ length (take (p + k) args) = (p + k)%nat.
Proof.
  intros Hno p k Hle. subst p k.
  rewrite <- required_by_kind in *.
  split; [by apply call_truncates | by apply length_take_le].
Qed.

End Keywords.

Lemma call_filters_keywords_witness :
  ∃ args' kwargs',
    call_with_correct_args Cases.on_retry
      [VMsg [("id", 5)]; VStr "orders"]
      [("retries", VStr "3"); ("trace_id", VStr "abc")]
      (Sample.state0 Sample.down)
    = (Ok tt,
       with_events (Sample.state0 Sample.down)
         [Call Cases.on_retry args' kwargs'])
    ∧ kwargs' = [("retries", VStr "3")].
Proof.
  destruct (call_filters_keywords Cases.on_retry
              [VMsg [("id", 5)]; VStr "orders"]
              [("retries", VStr "3"); ("trace_id", VStr "abc")]
              (Sample.state0 Sample.down))
    as (args' & kwargs' & E & Hk & _).
  - apply no_var_keyword_by_test. reflexivity.
  - right. vm_compute. lia.
  - exists args', kwargs'. split; [exact E | exact Hk].
Defined.

Lemma call_passes_everything_witness :
  call_with_correct_args Cases.on_any
    [VMsg [("id", 5)]; VStr "orders"] [("trace_id", VStr "abc")]
    (Sample.state0 Sample.down)
  = (Ok tt,
     with_events (Sample.state0 Sample.down)
       [Call Cases.on_any [VMsg [("id", 5)]; VStr "orders"]
          [("trace_id", VStr "abc")]]).
Proof.
  apply (call_passes_everything Cases.on_any
           [VMsg [("id", 5)]; VStr "orders"] [("trace_id", VStr "abc")]
           (Sample.state0 Sample.down)).
  - exists {| name := "args"; kind := VAR_POSITIONAL; default := empty |}.
    split; [left | reflexivity].
  - exists {| name := "kwargs"; kind := VAR_KEYWORD; default := empty |}.
    split; [right; left | reflexivity].
Defined.

Lemma keyword_only_counted_witness :
  call_with_correct_args Cases.on_flag
    [VMsg [("id", 5)]; VStr "orders"; VHeaders ∅] []
    (Sample.state0 Sample.down)
  = (Ok tt,
     with_events (Sample.state0 Sample.down)
       [Call Cases.on_flag [VMsg [("id", 5)]; VStr "orders"] []]).
Proof.
  apply (keyword_only_counted Cases.on_flag
           [VMsg [("id", 5)]; VStr "orders"; VHeaders ∅]
           (Sample.state0 Sample.down)).
  - apply no_var_positional_by_test. reflexivity.
  - vm_compute. lia.
Defined.

(** ** Dispatch, continued *)

Section DispatchEdges.
Context {payload msg : Type}.
Implicit Types (s : State payload msg) (frame : Frame) (topic : string).

(** X13. A frame without a [subscription] header raises [KeyError] before
    the registry is looked at; nothing is logged. *)
Theorem missing_subscription_header frame s :
  headers frame !! "subscription" = None ->
  _handle_message frame s = (Raise (KeyError "subscription"), s)
  ∧ on_message frame s = (Raise (KeyError "subscription"), ticked s).
Proof.
  intros Hsub.
  assert (∀ f (s1 : State payload msg),
            headers f !! "subscription" = None ->
            _handle_message f s1 = (Raise (KeyError "subscription"), s1))
    as Hgen.
  { intros f s1 Hf. unfold _handle_message. unfold_monad. by rewrite Hf. }
  split; [by apply Hgen |].
  rewrite on_message_unfold. apply Hgen. simpl.
  by rewrite lookup_insert_ne.
Qed.

(** X14. A frame for a bound topic that has no callback is deserialized, and
    the lookup of the callback raises [KeyError] on the topic. *)
Theorem frame_without_callback_raises frame topic msg_class version m s :
  headers frame !! "subscription" = Some topic ->
  _topics (self s) !! topic = Some msg_class ->
  _msg_versions (self s) !! topic = Some version ->
  headers frame !! "version" = Some version ->
  deserialize msg_class (body frame) = Ok m ->
  _callbacks (self s) !! topic = None ->
  _handle_message frame s
  = (Raise (KeyError topic),
     with_events s [SchemaDeserialize topic (body frame)]).
Proof.
  intros Hsub Ht Hv Hfv Hd Hcb.
  rewrite (handle_message_dispatches frame topic msg_class version m)
    by done.
  unfold mbind, M_bind, bind, getitem. simpl. by rewrite Hcb.
Qed.

(** X15. A body the message class refuses makes [_handle_message] raise the
    class's exception; the callback is not called. *)
Theorem bad_body_propagates frame topic msg_class version e s :
  headers frame !! "subscription" = Some topic ->
  _topics (self s) !! topic = Some msg_class ->
  _msg_versions (self s) !! topic = Some version ->
  headers frame !! "version" = Some version ->
  deserialize msg_class (body frame) = Raise e ->
  _handle_message frame s
  = (Raise e, with_events s [SchemaDeserialize topic (body frame)]).
Proof.
  intros Hsub Ht Hv Hfv Hd. unfold _handle_message. unfold_monad.
  rewrite Hsub. simpl.
  rewrite bool_decide_eq_false_2
    by (rewrite unbound_iff; unfold bound; rewrite Ht, Hv; eauto).
  rewrite bool_decide_eq_false_2 by (rewrite Hfv, Hv; tauto).
  rewrite Ht. simpl. by rewrite Hd.
Qed.

(** X16. A callback with a [*args] collector is called on all three
    candidates, whatever else its signature holds. *)
Theorem dispatch_to_collector frame topic msg_class version m callback s :
  headers frame !! "subscription" = Some topic ->
  _topics (self s) !! topic = Some msg_class ->
  _msg_versions (self s) !! topic = Some version ->
  headers frame !! "version" = Some version ->
  deserialize msg_class (body frame) = Ok m ->
  _callbacks (self s) !! topic = Some callback ->
  accepts_var_positional callback ->
  _handle_message frame s
  = (call_result (world s) callback
       [VMsg m; VStr topic; VHeaders (headers frame)] [],
     with_events s
       [SchemaDeserialize topic (body frame);
        Call callback [VMsg m; VStr topic; VHeaders (headers frame)] []]).
Proof.
  intros Hsub Ht Hv Hfv Hd Hcb Hyes.
  rewrite (handle_message_calls frame topic msg_class version m callback)
    by done.
  rewrite call_var_positional by done.
  by rewrite with_events_app.
Qed.



End DispatchEdges.

(** ** Subscriptions, continued *)

Section SubscriptionEdges.
Context {payload msg : Type}.
Implicit Types (s : State payload msg) (topic : string).
Implicit Types (callback : Callable).

(** X18. On a topic that lacks a schema or a version, [subscribe] and
    [unsubscribe] raise [NoSuchTopicException] and do nothing else. *)
Theorem subscription_guard topic callback s :
  ¬ bound (self s) topic ->
  subscribe topic callback s = (Raise (NoSuchTopicException topic), s)
  ∧ unsubscribe topic s = (Raise (NoSuchTopicException topic), s).
Proof.
  intros Hb. split.
  - unfold subscribe. unfold mbind, M_bind, bind at 1.
    by rewrite ensure_unbound.
  - unfold unsubscribe. unfold mbind, M_bind, bind at 1.
    by rewrite ensure_unbound.
Qed.

Lemma unsubscribe_entry topic callback s :
  bound (self s) topic ->
  _callbacks (self s) !! topic = Some callback ->
  unsubscribe topic s
  = (Ok tt,
     with_events (with_callbacks s (delete topic (_callbacks (self s))))
       [ConnUnsubscribe topic; Log INFO (LogUnsubscribed topic)]).
Proof.
  intros Hb Hc. unfold unsubscribe. unfold mbind, M_bind, bind at 1.
  rewrite ensure_bound by done. unfold_monad. simpl. rewrite Hc.
  unfold with_events, with_callbacks. simpl. by rewrite <- app_assoc.
Qed.

(** X19. On a subscribed topic, [unsubscribe] calls the transport's
    [unsubscribe] with the topic as id and removes the topic's callback,
    and no other. *)
Theorem unsubscribe_removes_entry topic callback s :
  bound (self s) topic ->
  _callbacks (self s) !! topic = Some callback ->
  ∃ s', unsubscribe topic s = (Ok tt, s')
        ∧ trace (world s')
          = (trace (world s)
             ++ [ConnUnsubscribe topic; Log INFO (LogUnsubscribed topic)])%list
        ∧ _callbacks (self s') !! topic = None
        ∧ (∀ other, other ≠ topic ->
             _callbacks (self s') !! other = _callbacks (self s) !! other)
        ∧ _topics (self s') = _topics (self s)
        ∧ _msg_versions (self s') = _msg_versions (self s).
Proof.
  intros Hb Hc. eexists. split; [by apply (unsubscribe_entry _ callback) |].
  simpl. split; [done |]. split; [by rewrite lookup_delete_eq |].
  split; [| done]. intros other Hne. by rewrite lookup_delete_ne.
Qed.

Lemma with_callbacks_same s :
  with_callbacks s (_callbacks (self s)) = s.
Proof. by destruct s as [[sv t v c] w]. Qed.

(** X20. Subscribing a topic that had no callback and unsubscribing it again
    restores the client; the transport has seen one subscribe and one
    unsubscribe. *)
Theorem subscribe_unsubscribe_round_trip topic callback s :
  bound (self s) topic ->
  _callbacks (self s) !! topic = None ->
  (subscribe topic callback;; unsubscribe topic) s
  = (Ok tt,
     with_events s
       [ConnSubscribe topic topic; Log INFO (LogSubscribed topic callback);
        ConnUnsubscribe topic; Log INFO (LogUnsubscribed topic)]).
Proof.
  intros Hb Hc. unfold mbind, M_bind, bind.
  rewrite subscribe_first by done.
  rewrite (unsubscribe_entry _ callback)
    by first [exact Hb | simpl; by rewrite lookup_insert_eq].
  simpl. rewrite delete_insert_eq, delete_id by done.
  unfold with_events, with_callbacks. simpl. rewrite <- app_assoc. simpl.
  by destruct s as [[sv t v c] w].
Qed.

Lemma subscribe_any topic callback s :
  bound (self s) topic ->
  ∃ evs,
    subscribe topic callback s
    = (Ok tt,
       with_events
         (with_callbacks s (<[topic := callback]> (_callbacks (self s))))
         evs)
    ∧ ∀ t, transport_subscribes t evs
           = if bool_decide (t = topic ∧ topic ∉ dom (_callbacks (self s)))
             then 1%nat else 0%nat.
Proof.
  intros Hb. destruct (_callbacks (self s) !! topic) as [old |] eqn:Hc.
  - eexists. split; [by apply subscribe_again |].
    intros t. rewrite bool_decide_eq_false_2; [done |].
    intros [_ Hn]. apply not_elem_of_dom in Hn. congruence.
  - eexists. split; [by apply subscribe_first |].
    intros t. unfold transport_subscribes. simpl.
    apply not_elem_of_dom in Hc.
    destruct (decide (topic = t)) as [-> | Hne].
    + by rewrite !bool_decide_eq_true_2.
    + rewrite bool_decide_eq_false_2 by done.
      rewrite bool_decide_eq_false_2; [done |]. intros [-> _]. done.
Qed.

Lemma subscribe_all_spec callback (order : list string) :
  ∀ s,
    NoDup order ->
    (∀ t, t ∈ order -> bound (self s) t) ->
    ∃ s',
      subscribe_all order callback s = (Ok tt, s')
      ∧ _topics (self s') = _topics (self s)
      ∧ _msg_versions (self s') = _msg_versions (self s)
      ∧ (∀ t, _callbacks (self s') !! t
              = if bool_decide (t ∈ order) then Some callback
                else _callbacks (self s) !! t)
      ∧ (∀ t, transport_subscribes t (trace (world s'))
              = (transport_subscribes t (trace (world s))
                 + if bool_decide (t ∈ order
                                   ∧ t ∉ dom (_callbacks (self s)))
                   then 1 else 0)%nat).
Proof.
  induction order as [| a rest IH]; intros s Hnd Hb.
  - exists s. split; [done |]. split; [done |]. split; [done |].
    split; intros t.
    + rewrite bool_decide_eq_false_2; [done |]. by intros H%elem_of_nil.
    + rewrite bool_decide_eq_false_2; [lia |]. by intros [H%elem_of_nil _].
  - apply NoDup_cons in Hnd as [Hna Hnd].
    destruct (subscribe_any a callback s) as (evs & E1 & Hevs).
    { apply Hb. by left. }
    set (s1 := with_events
                 (with_callbacks s (<[a := callback]> (_callbacks (self s))))
                 evs) in *.
    destruct (IH s1 Hnd) as (s2 & E2 & Ht2 & Hv2 & Hc2 & Htr2).
    { intros t Hin. apply (Hb t). by right. }
    exists s2. split.
    { simpl. unfold mbind, M_bind, bind. by rewrite E1. }
    split; [done |]. split; [done |]. split; intros t.
    + rewrite Hc2. simpl.
      destruct (decide (t = a)) as [-> | Hne].
      * rewrite (bool_decide_eq_false_2 (a ∈ rest)) by done.
        rewrite lookup_insert_eq.
        by rewrite bool_decide_eq_true_2 by left.
      * rewrite lookup_insert_ne by done.
        destruct (decide (t ∈ rest)) as [Hin | Hout].
        -- rewrite !bool_decide_eq_true_2; [done | by right | done].
        -- rewrite !bool_decide_eq_false_2; [done | | done].
           intros [-> | Hin]%elem_of_cons; done.
    + rewrite Htr2. simpl. rewrite transport_subscribes_app, Hevs.
      rewrite dom_insert_L.
      destruct (decide (t = a)) as [-> | Hne].
      * rewrite (bool_decide_eq_false_2 (a ∈ rest ∧ _)) by tauto.
        destruct (decide (a ∈ dom (_callbacks (self s)))) as [Hin | Hout].
        -- rewrite !bool_decide_eq_false_2; [lia | tauto | tauto].
        -- rewrite !bool_decide_eq_true_2; [lia | | done].
           split; [by left | done].
      * rewrite (bool_decide_eq_false_2 (t = a ∧ _)) by tauto.
        destruct (decide (t ∈ rest ∧ t ∉ dom (_callbacks (self s))))
          as [[Hin Hout] | Hno].
        -- rewrite !bool_decide_eq_true_2; [lia | | ].
           ++ split; [by right | done].
           ++ split; [done |]. intros [H%elem_of_singleton | H]%elem_of_union;
                done.
        -- rewrite !bool_decide_eq_false_2; [lia | | ].
           ++ intros [[-> | Hin]%elem_of_cons Hout]; [done | tauto].
           ++ intros [Hin Hout]. apply Hno. split; [done |].
              intros H. apply Hout. apply elem_of_union. by right.
Qed.

(** X21. On a client whose two registry mappings have the same keys,
    [subscribe_all] returns, leaves every bound topic with the given
    callback and the other entries alone, and calls the transport's
    [subscribe] once for each bound topic that had no callback, and for
    no other. *)
Theorem subscribe_all_covers_registry callback (order : list string) s :
  consistent (self s) ->
  key_order (self s) order ->
  ∃ s',
    subscribe_all order callback s = (Ok tt, s')
    ∧ (∀ t, t ∈ dom (_topics (self s)) ->
            _callbacks (self s') !! t = Some callback)
    ∧ (∀ t, t ∉ dom (_topics (self s)) ->
            _callbacks (self s') !! t = _callbacks (self s) !! t)
    ∧ (∀ t, transport_subscribes t (trace (world s'))
            = (transport_subscribes t (trace (world s))
               + if bool_decide (t ∈ dom (_topics (self s))
                                 ∧ t ∉ dom (_callbacks (self s)))
                 then 1 else 0)%nat).
Proof.
  intros Hcons [Hnd Hkeys].
  destruct (subscribe_all_spec callback order s Hnd)
    as (s' & E & _ & _ & Hc & Htr).
  { intros t Hin. apply Hkeys in Hin. unfold bound.
    rewrite <- !elem_of_dom. unfold consistent in Hcons.
    by rewrite <- Hcons. }
  exists s'. split; [done |]. split; [| split].
  - intros t Hin. rewrite Hc. by rewrite bool_decide_eq_true_2 by by apply Hkeys.
  - intros t Hout. rewrite Hc. rewrite bool_decide_eq_false_2; [done |].
    intros Hin. by apply Hkeys in Hin.
  - intros t. rewrite Htr.
    by rewrite (bool_decide_ext _ (t ∈ dom (_topics (self s))
                                   ∧ t ∉ dom (_callbacks (self s))))
      by (by rewrite Hkeys).
Qed.

End SubscriptionEdges.

(** ** From subscription and sending to delivery *)

Section EndToEnd.
Context {payload msg : Type}.
Implicit Types (s : State payload msg) (frame : Frame) (topic : string).
Implicit Types (callback : Callable).

Lemma deliver_to callback frame topic msg_class version m s :
  headers frame !! "subscription" = Some topic ->
  _topics (self s) !! topic = Some msg_class ->
  _msg_versions (self s) !! topic = Some version ->
  headers frame !! "version" = Some version ->
  deserialize msg_class (body frame) = Ok m ->
  _callbacks (self s) !! topic = Some callback ->
  ¬ accepts_var_positional callback ->
  (required_positional_count callback ≤ 3)%nat ->
  let stamped : Headers :=
    <["recieved_at" := pretty (now_ms s)]> (headers frame) in
  let args : list (Value msg) :=
    take (required_positional_count callback)
      [VMsg m; VStr topic; VHeaders stamped] in
  on_message frame s
  = (call_result (world s) callback args [],
     with_events (ticked s)
       [SchemaDeserialize topic (body frame); Call callback args []]).
Proof.
  intros Hsub Ht Hv Hfv Hd Hcb Hno Hle stamped args.
  rewrite on_message_unfold.
  rewrite (handle_message_calls _ topic msg_class version m callback);
    simpl; try done; try (by rewrite lookup_insert_ne).
  rewrite call_truncates by done.
  by rewrite with_events_app.
Qed.

(** X22. A frame that arrives after [subscribe topic callback] is handed to
    that callback, whether or not the topic had a callback before. *)
Theorem subscribe_then_deliver callback frame topic msg_class version m s :
  headers frame !! "subscription" = Some topic ->
  _topics (self s) !! topic = Some msg_class ->
  _msg_versions (self s) !! topic = Some version ->
  headers frame !! "version" = Some version ->
  deserialize msg_class (body frame) = Ok m ->
  ¬ accepts_var_positional callback ->
  (required_positional_count callback ≤ 3)%nat ->
  let stamped : Headers :=
    <["recieved_at" := pretty (now_ms s)]> (headers frame) in
  let args : list (Value msg) :=
    take (required_positional_count callback)
      [VMsg m; VStr topic; VHeaders stamped] in
  ∃ s1,
    subscribe topic callback s = (Ok tt, s1)
    ∧ on_message frame s1
      = (call_result (world s) callback args [],
         with_events (ticked s1)
           [SchemaDeserialize topic (body frame); Call callback args []]).
Proof.
  intros Hsub Ht Hv Hfv Hd Hno Hle stamped args.
  destruct (subscribe_any topic callback s) as (evs & E & _).
  { split; eauto. }
  eexists. split; [exact E |].
  rewrite (deliver_to callback _ topic msg_class version m);
    simpl; try done.
  by rewrite lookup_insert_eq.
Qed.


End EndToEnd.

(** ** Connecting and disconnecting, continued *)

Section ConnectEdges.
Context {payload msg : Type}.
Implicit Types (s : State payload msg).
Implicit Types (username password : option string).
Implicit Types (retry_limit retries : Z) (err : nat -> Exception).

(** X24. With a retry limit of zero or less the loop is not entered:
    [connect] returns without a single attempt. *)
Theorem connect_without_budget username password retry_limit s :
  (retry_limit ≤ 0)%Z ->
  connect username password retry_limit s = (Ok (Some tt), s).
Proof.
  intros Hle. unfold connect.
  destruct (Z.to_nat retry_limit); simpl;
    by rewrite bool_decide_eq_false_2 by lia.
Qed.

(** X25. An exception of the transport's [connect] that is not a
    [ConnectFailedException] is not caught: it leaves [connect] after
    the first attempt, with no log record, no sleep and no retry. *)
Theorem connect_other_exception username password retry_limit e s :
  0 < retry_limit ->
  connect_outcome (world s) (attempts (world s)) = Raise e ->
  (∀ text cause, e ≠ ConnectFailedException text cause) ->
  connect username password retry_limit s
  = (Raise e,
     after_attempts s 1 (connected (world s))
       [ConnConnect username password]).
Proof.
  intros Hpos Hout Hother. unfold connect.
  destruct (Z.to_nat retry_limit) as [| fuel] eqn:Hfuel; [lia |].
  simpl. rewrite bool_decide_eq_true_2 by lia.
  unfold connect_round, try_except, conn_connect. unfold_monad. simpl.
  rewrite Hout. simpl.
  destruct e; try done. by destruct (Hother message cause).
Qed.

(** X26. For any retry limit: a transport that refuses every attempt is
    tried as often as the (positive) limit says, each attempt followed
    by an error log and a sleep of 1, and [connect] then raises with the
    last refusal as cause; an attempt accepted after [k] refusals, with
    [k] below the limit, ends [connect] with nothing after its log
    record. *)
Theorem connect_retry_any_limit username password err s :
  (∀ n : nat,
     (∀ j, refuses (connect_outcome (world s)) err j) ->
     connect username password (Z.of_nat (S n)) s
     = (Raise (could_not_connect (err (attempts (world s) + n)%nat)),
        after_attempts s (S n) (connected (world s))
          (failed_rounds username password err (attempts (world s)) (S n))))
  ∧ (∀ retry_limit (k : nat),
       Z.of_nat k < retry_limit ->
       (∀ j, (attempts (world s) ≤ j < attempts (world s) + k)%nat ->
             refuses (connect_outcome (world s)) err j) ->
       connect_outcome (world s) (attempts (world s) + k)%nat = Ok tt ->
       connect username password retry_limit s
       = (Ok (Some tt),
          after_attempts s (S k) true
            (failed_rounds username password err (attempts (world s)) k
             ++ [ConnConnect username password; Log INFO LogConnected]))).
Proof.
  split.
  - intros n. apply connect_exhausts.
  - intros retry_limit k. apply connect_succeeds.
Qed.

Lemma connect_round_effect username password retry_limit retries s :
  self (connect_round username password retry_limit retries s).2 = self s
  ∧ length (List.filter is_connect
              (trace (world (connect_round username password retry_limit
                               retries s).2)))
    = S (length (List.filter is_connect (trace (world s))))
  ∧ (length (List.filter is_sleep
               (trace (world (connect_round username password retry_limit
                                retries s).2)))
    ≤ S (length (List.filter is_sleep (trace (world s)))))%nat.
Proof.
  unfold connect_round, try_except, conn_connect. unfold_monad. simpl.
  destruct (connect_outcome (world s) (attempts (world s))) as [[] | e];
    simpl.
  - rewrite <- !app_assoc, !List.filter_app, !length_app. simpl.
    split; [done |]. split; lia.
  - destruct e; simpl;
      try (rewrite !List.filter_app, !length_app; simpl;
           split; [done |]; split; lia).
    destruct (bool_decide (retries + 1 = retry_limit)); simpl;
      rewrite <- !app_assoc, !List.filter_app, !length_app; simpl;
      (split; [done |]; split; lia).
Qed.

Lemma connect_loop_bounded username password retry_limit (fuel : nat) :
  ∀ retries s,
    self (connect_loop fuel username password retry_limit retries s).2
    = self s
    ∧ (length (List.filter is_connect
                 (trace (world (connect_loop fuel username password
                                  retry_limit retries s).2)))
       ≤ length (List.filter is_connect (trace (world s))) + fuel)%nat
    ∧ (length (List.filter is_sleep
                 (trace (world (connect_loop fuel username password
                                  retry_limit retries s).2)))
       ≤ length (List.filter is_sleep (trace (world s))) + fuel)%nat.
Proof.
  induction fuel as [| fuel IH]; intros retries s; simpl.
  - case_bool_decide; simpl; (split; [done |]; split; lia).
  - case_bool_decide; simpl; [| split; [done |]; split; lia].
    unfold mbind, M_bind, bind.
    destruct (connect_round_effect username password retry_limit retries s)
      as (Hself & Hconn & Hsleep).
    destruct (connect_round username password retry_limit retries s)
      as [[[| r] | e] s1]; simpl in *.
    + split; [done |]. split; lia.
    + destruct (IH r s1) as (Hself1 & Hconn1 & Hsleep1).
      split; [congruence |]. split; lia.
    + split; [done |]. split; lia.
Qed.

(** X27. Whatever the transport answers, [connect] leaves the client's
    attributes alone and makes no more attempts, and sleeps no more
    often, than the retry limit says. *)
Theorem connect_bounded username password retry_limit s :
  self (connect username password retry_limit s).2 = self s
  ∧ (length (List.filter is_connect
               (trace (world (connect username password retry_limit s).2)))
     ≤ length (List.filter is_connect (trace (world s)))
       + Z.to_nat retry_limit)%nat
  ∧ (length (List.filter is_sleep
               (trace (world (connect username password retry_limit s).2)))
     ≤ length (List.filter is_sleep (trace (world s)))
       + Z.to_nat retry_limit)%nat.
Proof. apply connect_loop_bounded. Qed.

(** X28. [disconnect] does nothing when the transport reports that it is not
    connected; otherwise it calls the transport's [disconnect] once and
    logs.  It never raises and never touches the client's attributes. *)
Theorem disconnect_only_when_connected s :
  (disconnect s).1 = Ok tt
  ∧ self (disconnect s).2 = self s
  ∧ trace (world (disconnect s).2)
    = (trace (world s)
       ++ if connected (world s)
          then [ConnDisconnect; Log INFO LogDisconnected]
          else [])%list.
Proof.
  unfold disconnect. unfold_monad. simpl.
  destruct (connected (world s)); simpl.
  - by rewrite <- app_assoc.
  - by rewrite app_nil_r.
Qed.

End ConnectEdges.

Lemma missing_subscription_header_witness :
  on_message {| headers := {["version" := "1.0"]}; body := "id=5,qty=2" |}
    (Sample.subscribed Sample.on_order)
  = (Raise (KeyError "subscription"),
     ticked (Sample.subscribed Sample.on_order)).
Proof.
  apply (missing_subscription_header
           {| headers := {["version" := "1.0"]}; body := "id=5,qty=2" |}
           (Sample.subscribed Sample.on_order)).
  reflexivity.
Defined.

Lemma frame_without_callback_raises_witness :
  _handle_message (Sample.order_frame "1.0") Sample.unsubscribed
  = (Raise (KeyError "orders"),
     with_events Sample.unsubscribed
       [SchemaDeserialize "orders" "id=5,qty=2"]).
Proof.
  apply (frame_without_callback_raises (Sample.order_frame "1.0") "orders"
           Sample.Order "1.0" [("id", 5); ("qty", 2)] Sample.unsubscribed);
    reflexivity.
Defined.

Lemma bad_body_propagates_witness :
  _handle_message
    {| headers := headers (Sample.order_frame "1.0"); body := "garbage" |}
    (Sample.subscribed Sample.on_order)
  = (Raise (SchemaException "invalid body"),
     with_events (Sample.subscribed Sample.on_order)
       [SchemaDeserialize "orders" "garbage"]).
Proof.
  apply (bad_body_propagates
           {| headers := headers (Sample.order_frame "1.0");
              body := "garbage" |}
           "orders" Sample.Order "1.0" (SchemaException "invalid body")
           (Sample.subscribed Sample.on_order));
    reflexivity.
Defined.

Lemma dispatch_to_collector_witness :
  _handle_message (Sample.order_frame "1.0") (Sample.subscribed Cases.on_any)
  = (Ok tt,
     with_events (Sample.subscribed Cases.on_any)
       [SchemaDeserialize "orders" "id=5,qty=2";
        Call Cases.on_any
          [VMsg [("id", 5); ("qty", 2)]; VStr "orders";
           VHeaders (headers (Sample.order_frame "1.0"))] []]).
Proof.
  apply (dispatch_to_collector (Sample.order_frame "1.0") "orders"
           Sample.Order "1.0" [("id", 5); ("qty", 2)] Cases.on_any
           (Sample.subscribed Cases.on_any)); try reflexivity.
  exists {| name := "args"; kind := VAR_POSITIONAL; default := empty |}.
  split; [left | reflexivity].
Defined.

Lemma subscription_guard_witness :
  subscribe "orders" Sample.on_order (Sample.state0 Sample.down)
  = (Raise (NoSuchTopicException "orders"), Sample.state0 Sample.down)
  ∧ unsubscribe "orders" (Sample.state0 Sample.down)
    = (Raise (NoSuchTopicException "orders"), Sample.state0 Sample.down).
Proof.
  apply (subscription_guard "orders" Sample.on_order
           (Sample.state0 Sample.down)).
  intros [[x Hx] _]. simpl in Hx. by rewrite lookup_empty in Hx.
Defined.

Lemma unsubscribe_removes_entry_witness :
  ∃ s', unsubscribe "orders" (Sample.subscribed Sample.on_order) = (Ok tt, s')
        ∧ _callbacks (self s') !! "orders" = None.
Proof.
  destruct (unsubscribe_removes_entry "orders" Sample.on_order
              (Sample.subscribed Sample.on_order))
    as (s' & E & _ & Hc & _).
  - split; vm_compute; eauto.
  - reflexivity.
  - exists s'. split; [exact E | exact Hc].
Defined.

Lemma subscribe_unsubscribe_round_trip_witness :
  (subscribe "orders" Sample.on_order;; unsubscribe "orders")
    Sample.registered
  = (Ok tt,
     with_events Sample.registered
       [ConnSubscribe "orders" "orders";
        Log INFO (LogSubscribed "orders" Sample.on_order);
        ConnUnsubscribe "orders"; Log INFO (LogUnsubscribed "orders")]).
Proof.
  apply (subscribe_unsubscribe_round_trip "orders" Sample.on_order
           Sample.registered).
  - split; vm_compute; eauto.
  - reflexivity.
Defined.

Lemma subscribe_all_covers_registry_witness :
  ∃ s', subscribe_all ["orders"] Sample.on_order Sample.registered
        = (Ok tt, s')
        ∧ _callbacks (self s') !! "orders" = Some Sample.on_order
        ∧ transport_subscribes "orders" (trace (world s')) = 1%nat.
Proof.
  destruct (subscribe_all_covers_registry Sample.on_order ["orders"]
              Sample.registered)
    as (s' & E & Hin & _ & Htr).
  - vm_compute. reflexivity.
  - split.
    + apply NoDup_singleton.
    + intros topic. rewrite list_elem_of_singleton.
      change (_topics (self Sample.registered))
        with (<["orders" := Sample.Order]>
                (∅ : gmap string (Schema Sample.fields Sample.fields))).
      rewrite dom_insert_L, dom_empty_L, elem_of_union, elem_of_singleton.
      split; [by left | by intros [? | ?%elem_of_empty]].
  - exists s'. split; [exact E |]. split.
    + apply Hin. apply elem_of_dom. vm_compute. eauto.
    + rewrite (Htr "orders"). reflexivity.
Defined.

Lemma subscribe_then_deliver_witness :
  ∃ s1,
    subscribe "orders" Sample.on_order (Sample.subscribed Sample.on_tick)
    = (Ok tt, s1)
    ∧ on_message (Sample.order_frame "1.0") s1
      = (Ok tt,
         with_events (ticked s1)
           [SchemaDeserialize "orders" "id=5,qty=2";
            Call Sample.on_order
              [VMsg [("id", 5); ("qty", 2)]; VStr "orders"] []]).
Proof.
  destruct (subscribe_then_deliver Sample.on_order
              (Sample.order_frame "1.0") "orders" Sample.Order "1.0"
              [("id", 5); ("qty", 2)] (Sample.subscribed Sample.on_tick))
    as (s1 & E & Hd); try reflexivity.
  - apply no_var_positional_by_test. reflexivity.
  - vm_compute. lia.
  - exists s1. split; [exact E | exact Hd].
Defined.


Lemma connect_without_budget_witness :
  connect None None 0 (Sample.state0 Sample.down)
  = (Ok (Some tt), Sample.state0 Sample.down).
Proof.
  apply (connect_without_budget None None 0 (Sample.state0 Sample.down)).
  lia.
Defined.

Lemma connect_other_exception_witness :
  connect None None 8 (Sample.state0 Cases.broken)
  = (Raise (TransportException "socket closed"),
     after_attempts (Sample.state0 Cases.broken) 1 false
       [ConnConnect None None]).
Proof.
  apply (connect_other_exception None None 8
           (TransportException "socket closed") (Sample.state0 Cases.broken)).
  - lia.
  - reflexivity.
  - intros text cause. discriminate.
Defined.

Lemma connect_retry_any_limit_witness :
  connect None None 3 (Sample.state0 Sample.down)
  = (Raise (could_not_connect Sample.refused),
     after_attempts (Sample.state0 Sample.down) 3 false
       (failed_rounds None None (λ _, Sample.refused) 0 3))
  ∧ connect None None 5 (Sample.state0 Sample.up_at_third)
    = (Ok (Some tt),
       after_attempts (Sample.state0 Sample.up_at_third) 3 true
         (failed_rounds None None (λ _, Sample.refused) 0 2
          ++ [ConnConnect None None; Log INFO LogConnected])).
Proof.
  split.
  - apply (proj1 (connect_retry_any_limit None None (λ _, Sample.refused)
                    (Sample.state0 Sample.down)) 2%nat).
    intros j. split; [reflexivity |]. by eexists _, _.
  - apply (proj2 (connect_retry_any_limit None None (λ _, Sample.refused)
                    (Sample.state0 Sample.up_at_third)) 5 2%nat).
    + lia.
    + intros j Hj. simpl in Hj. split; [| by eexists _, _].
      simpl. unfold Sample.up_at_third.
      by rewrite bool_decide_eq_false_2 by lia.
    + reflexivity.
Defined.

(** ** The command line *)

Section CommandLine.
Context {payload msg : Type}.
Implicit Types (s : State payload msg) (args : Namespace).
Implicit Types (entry_points : list (gmap string (Schema payload msg) * string)).
Implicit Types (safe_load : option string -> Result payload).

(** X29. A publish request with only one of topic and data is refused with a
    message before any client is built: the state is untouched. *)
Theorem main_refuses_half_a_publish args entry_points safe_load
    (order : list string) s :
  args_list args = false ->
  (truthy (args_publish args) = true ∧ args_data args = None
   ∨ truthy (args_data args) = true ∧ args_publish args = None) ->
  main args entry_points safe_load order s
  = (Ok (if truthy (args_publish args)
         then ["Must also specify data to publish."]
         else ["Most also specify topic to publish data to."],
         Returned), s).
Proof.
  intros Hlist Hhalf. unfold main. rewrite Hlist.
  rewrite andb_false_r.
  destruct Hhalf as [[Hp Hd] | [Hd Hp]].
  - rewrite Hp, Hd. by rewrite bool_decide_eq_true_2.
  - rewrite Hd, Hp. simpl. by rewrite ?bool_decide_eq_true_2.
Qed.





End CommandLine.

Lemma main_refuses_half_a_publish_witness :
  main (payload := Sample.fields) (msg := Sample.fields)
    {| args_host := "127.0.0.1"; args_port := 61616;
       args_username := None; args_password := None;
       args_publish := Some "orders"; args_data := None;
       args_subscribe := []; args_list := false; args_headers := false |}
    [] (λ _, Raise (SchemaException "no data")) []
    (Sample.state0 Sample.down)
  = (Ok (["Must also specify data to publish."], Returned),
     Sample.state0 Sample.down).
Proof.
  apply (main_refuses_half_a_publish
           {| args_host := "127.0.0.1"; args_port := 61616;
              args_username := None; args_password := None;
              args_publish := Some "orders"; args_data := None;
              args_subscribe := []; args_list := false;
              args_headers := false |}
           [] (λ _, Raise (SchemaException "no data")) []
           (Sample.state0 Sample.down)).
  - reflexivity.
  - left. split; reflexivity.
Defined.

